(** * use-epics: a shallow embedding of [src/index.ts]

    The development follows the source file from top to bottom: the values
    the TypeScript code manipulates at run time, the [StateObservable]
    class, the [useEpics] hook (reducer, mount effect, callback surface,
    deferred publication effect) and the [ofType] operator.  All the
    definitions come first; the lemmas and theorems follow. *)

From Stdlib Require Import List String ZArith Bool Arith Lia.
Import ListNotations.
Open Scope string_scope.
Open Scope list_scope.

(* ================================================================== *)
(** * Part I: definitions                                              *)
(* ================================================================== *)

(** ** Run-time values

    TypeScript types are erased: states, payloads and actions are plain
    JavaScript values.  Arrays and objects carry the reference that [===]
    compares. *)

#[local] Set Warnings "-register-all".

Inductive JsValue : Type :=
| JsUndefined
| JsNull
| JsBool (b : bool)
| JsNumber (n : Z)
| JsNaN
| JsString (s : string)
| JsArray (ref : nat) (elems : list JsValue)
| JsObject (ref : nat) (fields : list (string * JsValue)).

(** [a === b]: primitives by value ([NaN] equals nothing, itself
    included), arrays and objects by reference. *)
Definition strict_eq (a b : JsValue) : bool :=
  match a, b with
  | JsUndefined, JsUndefined => true
  | JsNull, JsNull => true
  | JsBool x, JsBool y => Bool.eqb x y
  | JsNumber x, JsNumber y => Z.eqb x y
  | JsString x, JsString y => String.eqb x y
  | JsArray r _, JsArray r' _ => Nat.eqb r r'
  | JsObject r _, JsObject r' _ => Nat.eqb r r'
  | _, _ => false
  end.

(** [a !== b] *)
Definition strict_neq (a b : JsValue) : bool := negb (strict_eq a b).

(** [!v]: the falsy values are [undefined], [null], [false], [0], [NaN]
    and the empty string. *)
Definition falsy (v : JsValue) : bool :=
  match v with
  | JsUndefined | JsNull | JsNaN => true
  | JsBool b => negb b
  | JsNumber n => Z.eqb n 0
  | JsString s => String.eqb s ""
  | JsArray _ _ | JsObject _ _ => false
  end.

(** Lookup in a record keyed by strings, first binding first. *)
Fixpoint lookup {A : Type} (k : string) (r : list (string * A)) : option A :=
  match r with
  | [] => None
  | (k', x) :: r' => if String.eqb k k' then Some x else lookup k r'
  end.

(** [v.name] (and the destructuring [const {name} = v]) on a value that is
    neither [undefined] nor [null]: a missing property reads as
    [undefined]; arrays and primitives have no property called [type] or
    [payload]. *)
Definition get_field (name : string) (v : JsValue) : JsValue :=
  match v with
  | JsObject _ fields =>
      match lookup name fields with
      | Some x => x
      | None => JsUndefined
      end
  | _ => JsUndefined
  end.

(** The object literal [{type, payload}], allocated at reference [ref]. *)
Definition mkAction (ref : nat) (type : string) (payload : JsValue) : JsValue :=
  JsObject ref [("type", JsString type); ("payload", payload)].

(** Result of running JavaScript code that may throw. *)
Inductive Outcome (A : Type) : Type :=
| Returns (a : A)
| Throws (e : JsValue).
Arguments Returns {A} a.
Arguments Throws {A} e.

(** The error raised by calling something that is not a function. *)
Definition TypeError : JsValue := JsString "TypeError".

(** ** The observable-stream library, as far as the source uses it *)

(** Modelled from the spec: the stream library (rxjs) is an external
    collaborator that is not part of the sources.  A [Subject] is a list
    of subscribers, kept in subscription order; [next] hands the value to
    each of them in that order and returns the deliveries it made. *)
Definition Subject_next {O : Type} (observers : list O) (v : JsValue)
  : list (O * JsValue) :=
  map (fun o => (o, v)) observers.

(** Modelled from the spec: cancelling a subscription takes its
    subscriber out of the subject's list. *)
Definition Subject_unsubscribe {O : Type} (same : O -> O -> bool)
  (o : O) (observers : list O) : list O :=
  filter (fun o' => negb (same o o')) observers.

(** Modelled from the spec: the [filter] operator on a stream, a stream
    being the sequence of the values it emits. *)
Definition rx_filter (p : JsValue -> bool) (source : list JsValue)
  : list JsValue :=
  filter p source.

(** ** [class StateObservable] (lines 12-34) *)

Module StateObservable.
Section WithObservers.
Context {O : Type}.

(** A subscriber handed to [subscribe]: where its notifications go and
    whether it has already been closed. *)
Record Subscriber : Type := {
  destination : O;
  closed : bool
}.

(** The fields [value] and [__notifier] (the observers of that subject). *)
Record t : Type := {
  value : JsValue;
  notifier : list O
}.

(** Lines 25-26 of the constructor. *)
Definition create (initialState : JsValue) : t :=
  {| value := initialState; notifier := [] |}.

(** The subscribe function given to [super] (lines 17-23): the subscriber
    joins [__notifier]; when the resulting subscription is open the
    current [value] is delivered to it at once.  A closed subscriber
    yields a closed subscription and is not retained. *)
Definition subscribe (sub : Subscriber) (so : t) : t * list (O * JsValue) :=
  if closed sub then (so, [])
  else ({| value := value so; notifier := notifier so ++ [destination sub] |},
        [(destination sub, value so)]).

(** The callback of [__subscription] (lines 27-32), run for every value
    coming from the source channel. *)
Definition source_next (v : JsValue) (so : t) : t * list (O * JsValue) :=
  if strict_neq v (value so)
  then ({| value := v; notifier := notifier so |},
        Subject_next (notifier so) v)
  else (so, []).

(** A run of values arriving one after the other on the source channel. *)
Fixpoint source_run (vs : list JsValue) (so : t) : t * list (O * JsValue) :=
  match vs with
  | [] => (so, [])
  | v :: vs' =>
      let (so1, out1) := source_next v so in
      let (so2, out2) := source_run vs' so1 in
      (so2, out1 ++ out2)
  end.

(** What one observer received, oldest first. *)
Definition received (same : O -> O -> bool) (o : O)
  (out : list (O * JsValue)) : list JsValue :=
  map snd (filter (fun d => same o (fst d)) out).

End WithObservers.
Arguments t : clear implicits.
Arguments Subscriber : clear implicits.
End StateObservable.

(** ** [ofType] (lines 191-211) *)

(** [keys[i]] *)
Definition key_at (keys : list string) (i : nat) : JsValue :=
  match nth_error keys i with
  | Some k => JsString k
  | None => JsUndefined
  end.

(** The [for] loop of lines 203-207, [n] iterations left from index [i]. *)
Fixpoint ofType_loop (type : JsValue) (keys : list string) (n i : nat) : bool :=
  match n with
  | O => false
  | S n' =>
      if strict_eq type (key_at keys i) then true
      else ofType_loop type keys n' (S i)
  end.

(** The predicate given to [filter] (lines 195-210). *)
Definition ofType_predicate (keys : list string) (action : JsValue) : bool :=
  if falsy action then false
  else
    let type := get_field "type" action in
    let len := List.length keys in
    if Nat.eqb len 1 then strict_eq type (key_at keys 0)
    else ofType_loop type keys len 0.

Definition ofType (keys : list string) (source : list JsValue) : list JsValue :=
  rx_filter (ofType_predicate keys) source.

(** The property the operator is meant to decide: the item is an object
    whose [type] tag is one of the names. *)
Definition has_type_among (keys : list string) (item : JsValue) : bool :=
  match item with
  | JsObject _ fields =>
      match lookup "type" fields with
      | Some (JsString t) => existsb (String.eqb t) keys
      | _ => false
      end
  | _ => false
  end.

(** ** Types of [useEpics] (lines 36-88) *)

(** A transition function, applied to its list of arguments.  The state it
    works on is the one [createActions] was called with. *)
Definition Handler : Type := list JsValue -> Outcome JsValue.

(** [ActionRecordBase]: the handler map, in key order. *)
Definition ActionRecord : Type := list (string * Handler).

Definition Reducer : Type := JsValue -> JsValue -> Outcome JsValue.

(** [interface Options]: a field that the caller left out is [None]. *)
Record Options : Type := {
  opt_immer : option bool;
  opt_init : option (JsValue -> JsValue)
}.

(** The shape of the module-level object [defaultOptions], which is also
    the shape of [opts]. *)
Record Opts : Type := {
  immer : bool;
  init : option (JsValue -> JsValue)
}.

(** Lines 85-88: the content of [defaultOptions] when the module is
    loaded. *)
Definition defaultOptions : Opts :=
  {| immer := true; init := None |}.

(** [Object.assign(target, options)]: every property present in [options]
    overwrites the one of [target]; the result is [target] itself, so the
    value returned is also the new content of the target object. *)
Definition Object_assign (target : Opts) (options : Options) : Opts :=
  {| immer := match opt_immer options with
              | Some b => b
              | None => immer target
              end;
     init := match opt_init options with
             | Some f => Some f
             | None => init target
             end |}.

(** The arguments of [useEpics] that stay the same from one render to the
    next, together with the default export of the optional [immer] module
    that line 118 loads ([produce], taken as a parameter). *)
Record Args : Type := {
  createActions : JsValue -> ActionRecord;
  initialState : JsValue;
  options : Options;
  produce : Reducer -> Reducer
}.

(** An epic is a caller-supplied function from the two input streams to
    an output stream.  What the hook can observe of it is which inputs
    the output stream listens to once it is subscribed: the action stream
    (whole, or behind [ofType]) and the state observable. *)
Inductive ActionFilter : Type :=
| AllActions
| OfType (keys : list string).

Record Epic : Type := {
  on_action : option ActionFilter;
  on_state : bool
}.

(** The subscriber that the subscription of an epic attaches to a
    stream: the epic at position [epic_index] of the list given to the
    activation number [activation_id]. *)
Record Observer : Type := {
  activation_id : nat;
  epic_index : nat
}.

Definition same_observer (a b : Observer) : bool :=
  Nat.eqb (activation_id a) (activation_id b)
  && Nat.eqb (epic_index a) (epic_index b).

(** What reaches the epics.  An action notification also records what
    [state$.value] is at the moment of the delivery. *)
Inductive Event : Type :=
| StateNotification (o : Observer) (v : JsValue)
| ActionNotification (o : Observer) (action : JsValue) (state_value : JsValue).

Definition event_observer (e : Event) : Observer :=
  match e with
  | StateNotification o _ => o
  | ActionNotification o _ _ => o
  end.

(** The notifications addressed to [o], oldest first. *)
Definition notified (o : Observer) (events : list Event) : list Event :=
  filter (fun e => same_observer o (event_observer e)) events.

(** ** The state bus (lines 127-130) *)

(** Modelled from the spec: [distinctUntilChanged()] of the stream
    library, the stage that wraps the state bus for downstream dedup.  It
    remembers the last value it let through and drops a value that is
    [===] to it; the first value always passes. *)
Definition distinctUntilChanged (key : option JsValue) (v : JsValue)
  : option JsValue * bool :=
  match key with
  | Some k => if strict_eq k v then (key, false) else (Some v, true)
  | None => (Some v, true)
  end.

(** Modelled from the spec: the object stored in [stateRef$.current], a
    [BehaviorSubject] piped through [observeOn(queueScheduler)] and
    [distinctUntilChanged()].  Piping a subject yields a subject again:
    its [next] forwards to the [BehaviorSubject], and what the
    [BehaviorSubject] emits comes back through the two stages to the one
    subscriber of the pipe, the [StateObservable] built on line 133.  The
    queue scheduler runs a task scheduled without delay at once, no other
    queue task being in progress when the hook publishes. *)
Record StateBus : Type := {
  bus_value : JsValue;
  distinct_key : option JsValue;
  state_obs : StateObservable.t Observer
}.

Definition state_events (out : list (Observer * JsValue)) : list Event :=
  map (fun d => StateNotification (fst d) (snd d)) out.

(** A value emitted by the [BehaviorSubject] travels down the pipe. *)
Definition StateBus_deliver (v : JsValue) (sb : StateBus)
  : StateBus * list Event :=
  let (key', pass) := distinctUntilChanged (distinct_key sb) v in
  if pass
  then let (so', out) := StateObservable.source_next v (state_obs sb) in
       ({| bus_value := bus_value sb; distinct_key := key'; state_obs := so' |},
        state_events out)
  else ({| bus_value := bus_value sb; distinct_key := key';
           state_obs := state_obs sb |}, []).

(** [stateRef$.current.next(v)] *)
Definition StateBus_next (v : JsValue) (sb : StateBus) : StateBus * list Event :=
  StateBus_deliver v
    {| bus_value := v; distinct_key := distinct_key sb;
       state_obs := state_obs sb |}.

(** Lines 127-130 and 133: the bus is created around [initializedState],
    the [StateObservable] is created with the same value and subscribes to
    the bus, which replays its current value to it. *)
Definition StateBus_create (initializedState : JsValue) : StateBus * list Event :=
  StateBus_deliver initializedState
    {| bus_value := initializedState; distinct_key := None;
       state_obs := StateObservable.create initializedState |}.

(** ** The action bus (line 131) *)

Record ActionSubscriber : Type := {
  subscriber : Observer;
  input : ActionFilter
}.

Definition accepts (f : ActionFilter) (action : JsValue) : bool :=
  match f with
  | AllActions => true
  | OfType keys => ofType_predicate keys action
  end.

(** [actionRef$.current.next(action)]: every subscriber is served in
    subscription order; [state_value] is [state$.value] at that time. *)
Definition ActionBus_next (action : JsValue) (state_value : JsValue)
  (observers : list ActionSubscriber) : list Event :=
  flat_map (fun s =>
    if accepts (input s) action
    then [ActionNotification (subscriber s) action state_value]
    else []) observers.

(** ** [useEpics] (lines 102-181) *)

(** Modelled from the spec: the host's update loop (the setters of
    [useReducer] and [useState], the render, the triggers of the effects
    and of their cleanup) is an external collaborator that is not part of
    the sources.  The host modelled here works in update cycles: a setter
    hands its update to the host, the host keeps the updates in a queue
    and applies them, in order, when it renders the component next, and
    the effects run after the render.  This is the host inside a batch of
    updates; a host that renders within the setter call itself is not
    modelled. *)
Inductive Update : Type :=
| Dispatch (action : JsValue)
| SetLastAction (v : option JsValue).

(** The cells the hook keeps from one render to the next. *)
Record Hook : Type := {
  (** [opts] as the first render resolved it: what the memoised
      [reducer] and the initialiser of [useReducer] read then *)
  opts : Opts;
  (** the cell of [useReducer] *)
  state : JsValue;
  (** the cell of [useState] *)
  lastAction : option JsValue;
  (** updates queued with the host and not applied yet *)
  pending : list Update;
  (** the [state] captured by the memoised [wrappedActions]: the
      dependency list of that memo is [actionTypes], an array of names
      that are the same at every render, so the closures of the first
      render are the ones that stay *)
  memo_state : JsValue;
  (** [stateRef$.current] and [actionRef$.current] *)
  stateRef : option StateBus;
  actionRef : option (list ActionSubscriber);
  (** [effectSubscriptions$], held by the cleanup of the mount effect *)
  effectSubscriptions : list Observer;
  (** how many times the mount effect ran *)
  activations : nat;
  (** next free object reference *)
  next_ref : nat
}.

Definition enqueue (u : Update) (h : Hook) : Hook :=
  {| opts := opts h; state := state h; lastAction := lastAction h;
     pending := pending h ++ [u]; memo_state := memo_state h;
     stateRef := stateRef h; actionRef := actionRef h;
     effectSubscriptions := effectSubscriptions h;
     activations := activations h; next_ref := next_ref h |}.

(** Modelled from the spec: the setter returned by [useReducer] (line
    121), which is part of the host; it queues the action for the next
    render. *)
Definition dispatch (action : JsValue) : Hook -> Hook :=
  enqueue (Dispatch action).

(** Modelled from the spec: the setter returned by [useState] (line 110),
    which is part of the host; it queues the new marker for the next
    render. *)
Definition setLastAction (v : option JsValue) : Hook -> Hook :=
  enqueue (SetLastAction v).

Definition allocated (h : Hook) : Hook :=
  {| opts := opts h; state := state h; lastAction := lastAction h;
     pending := pending h; memo_state := memo_state h;
     stateRef := stateRef h; actionRef := actionRef h;
     effectSubscriptions := effectSubscriptions h;
     activations := activations h; next_ref := S (next_ref h) |}.

(** Lines 116-117: [createActions(state)[action.type](action.payload)].
    The handler found under the type is called with one argument, the
    payload; calling a missing entry is a [TypeError]. *)
Definition update (A : Args) (state action : JsValue) : Outcome JsValue :=
  match get_field "type" action with
  | JsString type =>
      match lookup type (createActions A state) with
      | Some handler => handler [get_field "payload" action]
      | None => Throws TypeError
      end
  | _ => Throws TypeError
  end.

(** Line 118. *)
Definition reducer (A : Args) (o : Opts) : Reducer :=
  if negb (immer o) then update A else produce A (update A).

(** Lines 156-163.  The parameter pattern [[payload]] keeps the first
    element of the array it is given ([undefined] when the array is
    empty). *)
Definition dispatchWithEpic (A : Args) (type : string)
  (arguments : list JsValue) (h : Hook) : Hook * Outcome unit :=
  let payload := nth 0 arguments JsUndefined in
  let action := mkAction (next_ref h) type payload in
  match reducer A (opts h) (memo_state h) action with
  | Throws e => (h, Throws e)
  | Returns nextState =>
      let h1 := if strict_neq nextState JsUndefined
                then dispatch action h else h in
      (allocated (setLastAction (Some action) h1), Returns tt)
  end.

(** Lines 148-150: [Object.keys(createActions(initialState))]. *)
Definition actionTypes (A : Args) : list string :=
  map fst (createActions A (initialState A)).

Definition Callback : Type := list JsValue -> Hook -> Hook * Outcome unit.

(** [acc[type] = f] *)
Fixpoint assign (acc : list (string * Callback)) (type : string) (f : Callback)
  : list (string * Callback) :=
  match acc with
  | [] => [(type, f)]
  | (k, g) :: acc' =>
      if String.eqb type k then (k, f) :: acc'
      else (k, g) :: assign acc' type f
  end.

(** Lines 152-170: one callback per action type, each passing the array
    of its arguments, [(...payload) => dispatchWithEpic(payload)]. *)
Definition wrappedActions (A : Args) : list (string * Callback) :=
  fold_left
    (fun acc type =>
       assign acc type (fun payload => dispatchWithEpic A type payload))
    (actionTypes A) [].

(** [surface.name(...arguments)] for a handler name.  For any other name
    only the keys that lines 152-170 put on the surface are looked up:
    what a plain object inherits ([toString] and the like) is not
    modelled, so the last branch is exact only for names that are not
    inherited either. *)
Definition invoke (A : Args) (name : string) (arguments : list JsValue)
  (h : Hook) : Hook * Outcome unit :=
  match lookup name (wrappedActions A) with
  | Some callback => callback arguments h
  | None => (h, Throws TypeError)
  end.

(** Modelled from the spec: the host applies the queued updates when it
    renders; a [Dispatch] runs the reducer on the stored state, a
    [SetLastAction] replaces the marker. *)
Fixpoint apply_updates (r : Reducer) (us : list Update)
  (s : JsValue) (la : option JsValue) : Outcome (JsValue * option JsValue) :=
  match us with
  | [] => Returns (s, la)
  | Dispatch action :: us' =>
      match r s action with
      | Returns s' => apply_updates r us' s' la
      | Throws e => Throws e
      end
  | SetLastAction v :: us' => apply_updates r us' s v
  end.

(** One render of the component: lines 110 and 121 read the two cells
    after the host has applied the queue. *)
Definition render (A : Args) (h : Hook) : Outcome Hook :=
  match apply_updates (reducer A (opts h)) (pending h) (state h) (lastAction h) with
  | Returns (s, la) =>
      Returns
        {| opts := opts h; state := s; lastAction := la; pending := [];
           memo_state := memo_state h;
           stateRef := stateRef h; actionRef := actionRef h;
           effectSubscriptions := effectSubscriptions h;
           activations := activations h; next_ref := next_ref h |}
  | Throws e => Throws e
  end.

(** Lines 172-178, the deferred publication effect, run after a render.
    A marker that is set is a fresh object, so the dependency list has
    changed whenever the condition of line 173 can hold. *)
Definition publication_effect (h : Hook) : Hook * list Event :=
  match lastAction h, stateRef h, actionRef h with
  | Some action, Some sb, Some observers =>
      let (sb', ev_state) := StateBus_next (state h) sb in
      let ev_action :=
        ActionBus_next action (StateObservable.value (state_obs sb')) observers in
      (setLastAction None
         {| opts := opts h; state := state h; lastAction := lastAction h;
            pending := pending h; memo_state := memo_state h;
            stateRef := Some sb'; actionRef := actionRef h;
            effectSubscriptions := effectSubscriptions h;
            activations := activations h; next_ref := next_ref h |},
       ev_state ++ ev_action)
  | _, _, _ => (h, [])
  end.

(** Line 143: the subscription of the output of one epic attaches the
    epic to the inputs its output listens to; the state observable plays
    its current value to a new subscriber. *)
Definition subscribe_epic (o : Observer) (e : Epic)
  (sb : StateBus) (observers : list ActionSubscriber)
  : StateBus * list ActionSubscriber * list Event :=
  let observers' :=
    match on_action e with
    | Some f => observers ++ [{| subscriber := o; input := f |}]
    | None => observers
    end in
  if on_state e
  then
    let (so', out) :=
      StateObservable.subscribe
        {| StateObservable.destination := o; StateObservable.closed := false |}
        (state_obs sb) in
    ({| bus_value := bus_value sb; distinct_key := distinct_key sb;
        state_obs := so' |}, observers', state_events out)
  else (sb, observers', []).

(** [epics$.map(e => e.subscribe())], from position [i] on. *)
Fixpoint subscribe_epics (activation i : nat) (epics : list Epic)
  (sb : StateBus) (observers : list ActionSubscriber)
  : StateBus * list ActionSubscriber * list Observer * list Event :=
  match epics with
  | [] => (sb, observers, [], [])
  | e :: epics' =>
      let o := {| activation_id := activation; epic_index := i |} in
      match subscribe_epic o e sb observers with
      | (sb1, observers1, ev1) =>
          match subscribe_epics activation (S i) epics' sb1 observers1 with
          | (sb2, observers2, subs, ev2) =>
              (sb2, observers2, o :: subs, ev1 ++ ev2)
          end
      end
  end.

(** Lines 124-126. *)
Definition initializedState (A : Args) (o : Opts) : JsValue :=
  match init o with
  | Some f => f (initialState A)
  | None => initialState A
  end.

(** Lines 123-144, the body of the mount effect.  [opts] is the object
    that [Object.assign] returned on line 113, that is the module-level
    [defaultOptions] itself, so line 124 reads [init] from what that
    shared object holds when the effect runs: [shared], which other calls
    of [useEpics] may have written since the render. *)
Definition mount_effect (A : Args) (shared : Opts) (epics : list Epic)
  (h : Hook) : Hook * list Event :=
  let (sb0, ev0) := StateBus_create (initializedState A shared) in
  match subscribe_epics (activations h) 0 epics sb0 [] with
  | (sb, observers, subs, ev) =>
      ({| opts := opts h; state := state h; lastAction := lastAction h;
          pending := pending h; memo_state := memo_state h;
          stateRef := Some sb; actionRef := Some observers;
          effectSubscriptions := subs;
          activations := S (activations h); next_ref := next_ref h |},
       ev0 ++ ev)
  end.

(** [e.unsubscribe()] for one subscription of [effectSubscriptions$]. *)
Definition unsubscribe_state (o : Observer) (sb : StateBus) : StateBus :=
  {| bus_value := bus_value sb; distinct_key := distinct_key sb;
     state_obs :=
       {| StateObservable.value := StateObservable.value (state_obs sb);
          StateObservable.notifier :=
            Subject_unsubscribe same_observer o
              (StateObservable.notifier (state_obs sb)) |} |}.

Definition unsubscribe_action (o : Observer) (observers : list ActionSubscriber)
  : list ActionSubscriber :=
  filter (fun s => negb (same_observer o (subscriber s))) observers.

(** Line 145, the cleanup the mount effect returns: the host runs it when
    the component unmounts and before the effect runs again for a new
    list of epics. *)
Definition cleanup (h : Hook) : Hook :=
  {| opts := opts h; state := state h; lastAction := lastAction h;
     pending := pending h; memo_state := memo_state h;
     stateRef :=
       option_map
         (fun sb => fold_left (fun sb o => unsubscribe_state o sb)
                      (effectSubscriptions h) sb)
         (stateRef h);
     actionRef :=
       option_map
         (fun obs => fold_left (fun obs o => unsubscribe_action o obs)
                       (effectSubscriptions h) obs)
         (actionRef h);
     effectSubscriptions := [];
     activations := activations h; next_ref := next_ref h |}.

(** The list of epics changed: cleanup, then the mount effect again. *)
Definition reactivate (A : Args) (shared : Opts) (epics : list Epic)
  (h : Hook) : Hook * list Event :=
  mount_effect A shared epics (cleanup h).

(** The first render (lines 108-121) and the module-level
    [defaultOptions] it leaves behind: [Object.assign] writes into
    [defaultOptions] and returns that same object. *)
Definition first_render (A : Args) (defaults : Opts) : Hook * Opts :=
  let opts := Object_assign defaults (options A) in
  let s0 := initializedState A opts in
  ({| opts := opts; state := s0; lastAction := None; pending := [];
      memo_state := s0; stateRef := None; actionRef := None;
      effectSubscriptions := []; activations := 0; next_ref := 0 |},
   opts).

(** ** A sample container

    The example scenario of the specification: a counter with a handler
    that increments, one that returns nothing, one that takes two
    arguments and one that throws. *)

(** [a + b] on numbers; a sum with [undefined] or [NaN] is [NaN]. *)
Definition number_plus (a b : JsValue) : JsValue :=
  match a, b with
  | JsNumber x, JsNumber y => JsNumber (x + y)
  | _, _ => JsNaN
  end.

Definition counter_actions (state : JsValue) : ActionRecord :=
  [ ("increment", fun _ => Returns (number_plus state (JsNumber 1)));
    ("incrementAsync", fun _ => Returns JsUndefined);
    ("add", fun arguments =>
       Returns (number_plus (number_plus state (nth 0 arguments JsUndefined))
                            (nth 1 arguments JsUndefined)));
    ("fail", fun _ => Throws (JsString "boom")) ].

(** A stand-in for the draft adapter: a recipe that returns nothing keeps
    the state it was given. *)
Definition keep_on_void (r : Reducer) : Reducer :=
  fun s a =>
    match r s a with
    | Returns JsUndefined => Returns s
    | other => other
    end.

Definition counter (o : Options) : Args :=
  {| createActions := counter_actions;
     initialState := JsNumber 0;
     options := o;
     produce := keep_on_void |}.

Definition no_draft : Options := {| opt_immer := Some false; opt_init := None |}.
Definition no_options : Options := {| opt_immer := None; opt_init := None |}.

(** Two epics: the first listens to [incrementAsync] and watches the
    state, the second listens to every action. *)
Definition sample_epics : list Epic :=
  [ {| on_action := Some (OfType ["incrementAsync"]); on_state := true |};
    {| on_action := Some AllActions; on_state := false |} ].

(** The counter without draft mode, after its first render and mount
    effect. *)
Definition mounted_counter : Hook :=
  fst (mount_effect (counter no_draft)
         (snd (first_render (counter no_draft) defaultOptions)) sample_epics
         (fst (first_render (counter no_draft) defaultOptions))).

(** The same counter once [increment()] has been called and the host has
    rendered: the state is 1 and the marker holds the action. *)
Definition incremented_counter : Hook :=
  match render (counter no_draft)
          (fst (invoke (counter no_draft) "increment" [] mounted_counter)) with
  | Returns h => h
  | Throws _ => mounted_counter
  end.

(** ** Runs of a mounted container *)

(** What can happen to a mounted container: a callback is invoked, the
    host renders, the publication effect runs, the list of epics changes.
    The label is what the step delivers to the epics. *)
Inductive step (A : Args) : Hook -> list Event -> Hook -> Prop :=
| step_invoke name arguments h :
    step A h [] (fst (invoke A name arguments h))
| step_render h h' :
    render A h = Returns h' -> step A h [] h'
| step_publish h :
    step A h (snd (publication_effect h)) (fst (publication_effect h))
| step_reactivate shared epics h :
    step A h (snd (reactivate A shared epics h))
      (fst (reactivate A shared epics h)).

Inductive run (A : Args) : Hook -> list Event -> Hook -> Prop :=
| run_done h : run A h [] h
| run_more h ev h1 ev' h2 :
    run A h ev h1 -> step A h1 ev' h2 -> run A h (ev ++ ev') h2.

(** The states a container goes through once it is mounted. *)
Definition reachable (A : Args) (h : Hook) : Prop :=
  exists defaults shared epics ev,
    run A (fst (mount_effect A shared epics (fst (first_render A defaults))))
      ev h.

(** The observers attached to the two buses of a container. *)
Definition registered (o : Observer) (h : Hook) : Prop :=
  (exists sb, stateRef h = Some sb
              /\ In o (StateObservable.notifier (state_obs sb)))
  \/ (exists observers, actionRef h = Some observers
                        /\ In o (map subscriber observers)).

(** The dedup stage and the state observable hold the same value. *)
Definition bus_coherent (sb : StateBus) : Prop :=
  distinct_key sb = Some (StateObservable.value (state_obs sb)).

(** [v] is the value [s]: the same value, or [===] to it. *)
Definition identical (v s : JsValue) : Prop :=
  v = s \/ strict_eq s v = true.

(** The action that the claim about the callback surface describes:
    [{type: name, payload: arguments}], the payload being the array of
    all the arguments. *)
Definition described_action (ref array_ref : nat) (name : string)
  (arguments : list JsValue) : JsValue :=
  mkAction ref name (JsArray array_ref arguments).

(** The stream of the filtering example: actions of types A, B and C and
    one [undefined] entry. *)
Definition sample_stream : list JsValue :=
  [ mkAction 1 "A" (JsNumber 10); JsUndefined; mkAction 2 "C" JsNull;
    mkAction 3 "B" (JsString "x"); mkAction 4 "A" (JsNumber 11) ].

(** A state observable holding 5 with one observer. *)
Definition sample_observable : StateObservable.t nat :=
  {| StateObservable.value := JsNumber 5; StateObservable.notifier := [7%nat] |}.

(** What holds of every mounted container: both buses exist, the dedup
    stage agrees with the state observable, every attached observer
    belongs to a subscription the cleanup holds, and those subscriptions
    were made by an activation that has already been counted. *)
Definition hook_inv (h : Hook) : Prop :=
  (exists sb observers,
      stateRef h = Some sb /\ actionRef h = Some observers /\ bus_coherent sb)
  /\ (forall o, registered o h -> In o (effectSubscriptions h))
  /\ (forall o, In o (effectSubscriptions h) -> activation_id o < activations h).


(** A sequence of notifications in which no value is [===] to the one
    just before it, [prev] being what the observer saw last. *)
Fixpoint changing (prev : JsValue) (l : list JsValue) : Prop :=
  match l with
  | [] => True
  | x :: l' => strict_eq x prev = false /\ changing x l'
  end.

(** A second sample container: a stock of one item whose handler refuses
    to go below zero. *)
Definition stock_actions (state : JsValue) : ActionRecord :=
  [ ("take", fun _ =>
       match state with
       | JsNumber 0 => Throws (JsString "empty")
       | _ => Returns (number_plus state (JsNumber (-1)))
       end) ].

Definition stock : Args :=
  {| createActions := stock_actions;
     initialState := JsNumber 1;
     options := no_draft;
     produce := keep_on_void |}.

(** The stock after [take()] has been called once and rendered: the
    state is 0, the callbacks still close over 1. *)
Definition emptied_stock : Hook :=
  match render stock
          (fst (invoke stock "take" []
                  (fst (mount_effect stock
                          (snd (first_render stock defaultOptions))
                          sample_epics
                          (fst (first_render stock defaultOptions)))))) with
  | Returns h => h
  | Throws _ => fst (first_render stock defaultOptions)
  end.

(* ================================================================== *)
(** * Part II: lemmas and theorems                                     *)
(* ================================================================== *)

(** ** [ofType] *)

Lemma falsy_not_object (v : JsValue) (keys : list string) :
  falsy v = true -> has_type_among keys v = false.
Proof.
  destruct v; simpl; intros H; try discriminate; reflexivity.
Qed.

Lemma strict_eq_key (type : JsValue) (k : string) :
  strict_eq type (JsString k) =
  match type with JsString t => String.eqb t k | _ => false end.
Proof. destruct type; reflexivity. Qed.

Lemma key_at_app (pre : list string) (k : string) (ks : list string) :
  key_at (pre ++ k :: ks) (List.length pre) = JsString k.
Proof.
  unfold key_at. rewrite nth_error_app2 by lia.
  rewrite Nat.sub_diag. reflexivity.
Qed.

Lemma ofType_loop_existsb (type : JsValue) (ks pre : list string) :
  ofType_loop type (pre ++ ks) (List.length ks) (List.length pre)
  = existsb (fun k => strict_eq type (JsString k)) ks.
Proof.
  revert pre. induction ks as [|k ks IH]; intros pre; simpl.
  - reflexivity.
  - rewrite key_at_app.
    destruct (strict_eq type (JsString k)); simpl; [reflexivity|].
    replace (pre ++ k :: ks) with ((pre ++ [k]) ++ ks)
      by (rewrite <- app_assoc; reflexivity).
    replace (S (List.length pre)) with (List.length (pre ++ [k]))
      by (rewrite length_app; simpl; lia).
    apply IH.
Qed.

Lemma ofType_scan (type : JsValue) (keys : list string) :
  (if Nat.eqb (List.length keys) 1 then strict_eq type (key_at keys 0)
   else ofType_loop type keys (List.length keys) 0)
  = existsb (fun k => strict_eq type (JsString k)) keys.
Proof.
  destruct (Nat.eqb (List.length keys) 1) eqn:E.
  - destruct keys as [|k [|k' ks]]; simpl in E; try discriminate.
    simpl. unfold key_at. simpl. now rewrite orb_false_r.
  - apply (ofType_loop_existsb type keys []).
Qed.

Lemma existsb_no_string (keys : list string) (type : JsValue) :
  (forall t, type <> JsString t) ->
  existsb (fun k => strict_eq type (JsString k)) keys = false.
Proof.
  intros H. induction keys as [|k ks IH]; simpl; [reflexivity|].
  rewrite IH, orb_false_r, strict_eq_key.
  destruct type; try reflexivity. now elim (H s).
Qed.

(** The predicate of the source decides membership of the type tag. *)
Lemma ofType_predicate_spec (keys : list string) (item : JsValue) :
  ofType_predicate keys item = has_type_among keys item.
Proof.
  unfold ofType_predicate.
  destruct (falsy item) eqn:F.
  - symmetry. now apply falsy_not_object.
  - cbv zeta. rewrite ofType_scan.
    destruct item as [ | | b | n | | s | r elems | r fields];
      unfold get_field, has_type_among;
      try (apply existsb_no_string; intros; discriminate).
    destruct (lookup "type" fields) as [[ | | b | n | | t | r' e' | r' f']|];
      try (apply existsb_no_string; intros; discriminate).
    induction keys as [|k ks IH]; simpl in *; [reflexivity|].
    now rewrite IH.
Qed.

(** C6: [ofType] keeps exactly the items whose type tag is one of the
    names, in their original order and unaltered; a falsy item (absent,
    [undefined]) never comes out and raises nothing; when no item
    matches, the result is the empty stream. *)
Theorem ofType_keeps_matching_types (keys : list string) (source : list JsValue) :
  ofType keys source = filter (has_type_among keys) source
  /\ (forall item, In item (ofType keys source) <->
        In item source /\ exists ref fields t,
          item = JsObject ref fields /\ lookup "type" fields = Some (JsString t)
          /\ In t keys)
  /\ (forall item, falsy item = true -> ~ In item (ofType keys source))
  /\ ((forall item, In item source -> has_type_among keys item = false) ->
      ofType keys source = []).
Proof.
  assert (E : ofType keys source = filter (has_type_among keys) source).
  { unfold ofType, rx_filter. apply filter_ext. apply ofType_predicate_spec. }
  split; [exact E|]. rewrite E. split; [|split].
  - intros item. rewrite filter_In. split.
    + intros [Hin Hm]. split; [exact Hin|].
      destruct item as [ | | b | n | | s | r elems | r fields];
        simpl in Hm; try discriminate.
      destruct (lookup "type" fields) as [[ | | b | n | | t | r' e' | r' f']|] eqn:L;
        try discriminate.
      apply existsb_exists in Hm. destruct Hm as [k [Hk Heq]].
      apply String.eqb_eq in Heq. subst k.
      exists r, fields, t. auto.
    + intros [Hin [ref [fields [t [-> [L Hk]]]]]]. split; [exact Hin|].
      simpl. rewrite L. apply existsb_exists. exists t.
      split; [exact Hk|apply String.eqb_refl].
  - intros item F Hin. apply filter_In in Hin. destruct Hin as [_ Hm].
    rewrite (falsy_not_object item keys F) in Hm. discriminate.
  - intros Hnone. induction source as [|x xs IH]; simpl; [reflexivity|].
    rewrite (Hnone x) by (left; reflexivity).
    apply IH.
    + unfold ofType, rx_filter. apply filter_ext. apply ofType_predicate_spec.
    + intros item Hin. apply Hnone. right. exact Hin.
Qed.

(** C6 at the example of the specification: names A and B over a stream
    of A, [undefined], C, B, A. *)
Lemma ofType_keeps_matching_types_witness :
  ofType ["A"; "B"] sample_stream
  = [ mkAction 1 "A" (JsNumber 10); mkAction 3 "B" (JsString "x");
      mkAction 4 "A" (JsNumber 11) ]
  /\ ~ In JsUndefined (ofType ["A"; "B"] sample_stream)
  /\ ofType ["D"] sample_stream = [].
Proof.
  destruct (ofType_keeps_matching_types ["A"; "B"] sample_stream)
    as [E [_ [F _]]].
  destruct (ofType_keeps_matching_types ["D"] sample_stream)
    as [_ [_ [_ N]]].
  split; [rewrite E; reflexivity|]. split.
  - apply F. reflexivity.
  - apply N. intros item Hin. simpl in Hin.
    repeat (destruct Hin as [<-|Hin]; [reflexivity|]). contradiction.
Defined.

(** ** [StateObservable] *)

Section StateObservableFacts.
Import StateObservable.
Context {O : Type}.

Lemma source_next_values (v : JsValue) (so : t O) (d : O * JsValue) :
  In d (snd (source_next v so)) -> snd d = v /\ In (fst d) (notifier so).
Proof.
  unfold source_next. destruct (strict_neq v (value so)); simpl.
  - unfold Subject_next. rewrite in_map_iff. intros [o [<- Ho]]. auto.
  - contradiction.
Qed.

Lemma source_next_notifier (v : JsValue) (so : t O) :
  notifier (fst (source_next v so)) = notifier so.
Proof. unfold source_next. now destruct (strict_neq v (value so)). Qed.

Lemma source_run_values (vs : list JsValue) (so : t O) (d : O * JsValue) :
  In d (snd (source_run vs so)) -> In (snd d) vs.
Proof.
  revert so. induction vs as [|v vs IH]; intros so; simpl; [contradiction|].
  destruct (source_next v so) as [so1 out1] eqn:E1.
  destruct (source_run vs so1) as [so2 out2] eqn:E2. simpl.
  rewrite in_app_iff. intros [H|H].
  - left. symmetry. apply (source_next_values v so).
    rewrite E1. exact H.
  - right. apply (IH so1). rewrite E2. exact H.
Qed.

Lemma received_values (same : O -> O -> bool) (o : O)
  (out : list (O * JsValue)) (x : JsValue) :
  In x (received same o out) -> exists d, In d out /\ snd d = x.
Proof.
  unfold received. rewrite in_map_iff. intros [d [E H]].
  apply filter_In in H. exists d. tauto.
Qed.

(** C4: subscribing an open subscriber delivers the current [value] to it
    within the call itself and attaches it; whatever is published
    afterwards reaches it after that first notification. *)
Theorem replay_on_subscribe (same : O -> O -> bool) (o : O) (so : t O)
  (later : list JsValue) :
  same o o = true ->
  let sub := {| destination := o; closed := false |} in
  let so1 := fst (subscribe sub so) in
  snd (subscribe sub so) = [(o, value so)]
  /\ value so1 = value so
  /\ In o (notifier so1)
  /\ received same o (snd (subscribe sub so) ++ snd (source_run later so1))
     = value so :: received same o (snd (source_run later so1))
  /\ (forall x, In x (received same o (snd (source_run later so1))) ->
      In x later).
Proof.
  intros Hrefl sub so1. unfold so1, sub, subscribe. simpl.
  repeat split.
  - apply in_or_app. right. left. reflexivity.
  - unfold received. simpl. rewrite Hrefl. reflexivity.
  - intros x Hx. apply received_values in Hx. destruct Hx as [d [Hd <-]].
    now apply source_run_values in Hd.
Qed.

(** C5: a value arriving from the source channel that is [===] to the
    stored one is dropped, leaving the observable as it was and notifying
    nobody; a distinct one is stored and handed to every subscriber in
    subscription order; the same value published twice in a row is
    notified once. *)
Theorem dedup_of_source_values (so : t O) (v : JsValue) :
  (strict_eq v (value so) = true -> source_next v so = (so, []))
  /\ (strict_eq v (value so) = false ->
      source_next v so
      = ({| value := v; notifier := notifier so |},
         map (fun o => (o, v)) (notifier so)))
  /\ (strict_eq v v = true ->
      snd (source_run [v; v] so) = snd (source_next v so))
  /\ (strict_eq v v = true -> strict_eq v (value so) = false ->
      snd (source_run [v; v] so) = map (fun o => (o, v)) (notifier so)).
Proof.
  assert (Twice : strict_eq v v = true ->
            snd (source_run [v; v] so) = snd (source_next v so)).
  { intros Hv. simpl. unfold source_next at 1 3.
    destruct (strict_neq v (value so)) eqn:E; simpl.
    - unfold source_next, strict_neq. simpl. rewrite Hv. simpl.
      now rewrite app_nil_r.
    - unfold source_next. rewrite E. reflexivity. }
  unfold source_next, strict_neq in *. repeat split.
  - intros ->. reflexivity.
  - intros ->. reflexivity.
  - exact Twice.
  - intros Hv Hd. rewrite (Twice Hv), Hd. reflexivity.
Qed.

End StateObservableFacts.

Lemma replay_on_subscribe_witness :
  Nat.eqb 9 9 = true
  /\ snd (StateObservable.subscribe
            {| StateObservable.destination := 9%nat;
               StateObservable.closed := false |} sample_observable)
     = [(9%nat, JsNumber 5)]
  /\ StateObservable.received Nat.eqb 9%nat
       (snd (StateObservable.subscribe
               {| StateObservable.destination := 9%nat;
                  StateObservable.closed := false |} sample_observable)
        ++ snd (StateObservable.source_run [JsNumber 6; JsNumber 6; JsNumber 5]
                  (fst (StateObservable.subscribe
                          {| StateObservable.destination := 9%nat;
                             StateObservable.closed := false |}
                          sample_observable))))
     = [JsNumber 5; JsNumber 6; JsNumber 5].
Proof.
  split; [reflexivity|].
  destruct (replay_on_subscribe Nat.eqb 9%nat sample_observable
              [JsNumber 6; JsNumber 6; JsNumber 5] eq_refl)
    as [H1 [_ [_ [H2 _]]]].
  split; [exact H1|]. rewrite H2. reflexivity.
Defined.

Lemma dedup_of_source_values_witness :
  strict_eq (JsNumber 5) (StateObservable.value sample_observable) = true
  /\ StateObservable.source_next (JsNumber 5) sample_observable
     = (sample_observable, [])
  /\ strict_eq (JsNumber 6) (StateObservable.value sample_observable) = false
  /\ strict_eq (JsNumber 6) (JsNumber 6) = true
  /\ snd (StateObservable.source_run [JsNumber 6; JsNumber 6] sample_observable)
     = [(7%nat, JsNumber 6)].
Proof.
  destruct (dedup_of_source_values sample_observable (JsNumber 5))
    as [Same _].
  destruct (dedup_of_source_values sample_observable (JsNumber 6))
    as [_ [_ [_ Twice]]].
  split; [reflexivity|]. split; [exact (Same eq_refl)|].
  split; [reflexivity|]. split; [reflexivity|].
  exact (Twice eq_refl eq_refl).
Defined.

(** ** The callback surface *)

Lemma lookup_assign (acc : list (string * Callback)) (type name : string)
  (f : Callback) :
  lookup name (assign acc type f)
  = if String.eqb name type then Some f else lookup name acc.
Proof.
  induction acc as [|[k g] acc IH]; simpl.
  - reflexivity.
  - destruct (String.eqb type k) eqn:Etk; simpl.
    + apply String.eqb_eq in Etk. subst k.
      now destruct (String.eqb name type).
    + destruct (String.eqb name k) eqn:Enk.
      * apply String.eqb_eq in Enk. subst k.
        rewrite String.eqb_sym, Etk. reflexivity.
      * exact IH.
Qed.

Lemma lookup_fold_assign (F : string -> Callback) (types : list string)
  (acc : list (string * Callback)) (name : string) :
  lookup name (fold_left (fun acc type => assign acc type (F type)) types acc)
  = if existsb (String.eqb name) types then Some (F name) else lookup name acc.
Proof.
  revert acc. induction types as [|t ts IH]; intros acc; simpl.
  - reflexivity.
  - rewrite IH, lookup_assign.
    destruct (String.eqb name t) eqn:E; simpl.
    + apply String.eqb_eq in E. subst t.
      now destruct (existsb (String.eqb name) ts).
    + reflexivity.
Qed.

(** The method stored under a handler name is [dispatchWithEpic] for that
    name, given the array of the arguments. *)
Lemma invoke_known_name (A : Args) (name : string) (arguments : list JsValue)
  (h : Hook) :
  In name (actionTypes A) ->
  invoke A name arguments h = dispatchWithEpic A name arguments h.
Proof.
  intros Hin. unfold invoke, wrappedActions.
  rewrite (lookup_fold_assign (fun type payload => dispatchWithEpic A type payload)).
  replace (existsb (String.eqb name) (actionTypes A)) with true; [reflexivity|].
  symmetry. apply existsb_exists. exists name.
  split; [exact Hin|apply String.eqb_refl].
Qed.

(** C1, evaluated on the counter: [add(1, 2)] records an action whose
    payload is the first argument alone, not the array of the arguments,
    and the handler is run on that single argument, so the stored state
    becomes [NaN] where the handler applied to both arguments yields 3. *)
Theorem callback_keeps_first_argument_only :
  let A := counter no_draft in
  let arguments := [JsNumber 1; JsNumber 2] in
  let h1 := fst (invoke A "add" arguments mounted_counter) in
  In "add" (actionTypes A)
  /\ pending h1 = [ Dispatch (mkAction 0 "add" (JsNumber 1));
                    SetLastAction (Some (mkAction 0 "add" (JsNumber 1))) ]
  /\ (forall array_ref,
        mkAction 0 "add" (JsNumber 1)
        <> described_action 0 array_ref "add" arguments)
  /\ (exists h2, render A h1 = Returns h2 /\ state h2 = JsNaN)
  /\ (exists handler,
        lookup "add" (createActions A (state mounted_counter)) = Some handler
        /\ handler arguments = Returns (JsNumber 3)).
Proof.
  cbv zeta. split; [simpl; tauto|]. split; [reflexivity|].
  split; [intros r; discriminate|]. split.
  - eexists. split; reflexivity.
  - eexists. split; reflexivity.
Qed.

(** ** Options *)

(** C9, evaluated: once a call has passed [immer: false], a later call
    that leaves the flag out finds it disabled, because the first call
    wrote into the shared [defaultOptions]; on the untouched defaults the
    same call has it enabled. *)
Theorem omitted_flag_follows_earlier_call :
  let earlier := first_render (counter no_draft) defaultOptions in
  let later := first_render (counter no_options) (snd earlier) in
  opt_immer (options (counter no_options)) = None
  /\ immer (snd earlier) = false
  /\ immer (opts (fst later)) = false
  /\ reducer (counter no_options) (opts (fst later))
     = update (counter no_options)
  /\ immer (opts (fst (first_render (counter no_options) defaultOptions)))
     = true.
Proof. cbv zeta. repeat split. Qed.

(** ** A handler that throws *)

(** When the reduction of line 158, made on the captured state, throws,
    the callback throws the same error to its caller and leaves the
    container exactly as it was: nothing is queued, the stored state and
    the marker are untouched, and the next render and the next invocation
    proceed as if the call had not been made. *)
Lemma handler_error_reaches_caller (A : Args) (name : string)
  (arguments : list JsValue) (h : Hook) (e : JsValue) :
  In name (actionTypes A) ->
  reducer A (opts h) (memo_state h)
    (mkAction (next_ref h) name (nth 0 arguments JsUndefined)) = Throws e ->
  invoke A name arguments h = (h, Throws e)
  /\ state (fst (invoke A name arguments h)) = state h
  /\ pending (fst (invoke A name arguments h)) = pending h
  /\ render A (fst (invoke A name arguments h)) = render A h
  /\ (forall name' arguments',
        invoke A name' arguments' (fst (invoke A name arguments h))
        = invoke A name' arguments' h).
Proof.
  intros Hin Hthrow.
  assert (E : invoke A name arguments h = (h, Throws e)).
  { rewrite invoke_known_name by exact Hin.
    unfold dispatchWithEpic. cbv zeta. now rewrite Hthrow. }
  rewrite E. simpl. repeat split.
Qed.

Lemma handler_error_reaches_caller_witness :
  invoke (counter no_draft) "fail" [] mounted_counter
  = (mounted_counter, Throws (JsString "boom")).
Proof.
  apply (handler_error_reaches_caller (counter no_draft) "fail" []
           mounted_counter (JsString "boom")).
  - simpl. tauto.
  - reflexivity.
Defined.

(** C8, evaluated on the stock: one [take()] has brought the stored state
    to 0, on which the handler throws, while the callbacks still close
    over the state 1 of the first render.  The next [take()] reduces on
    1, so it throws nothing to its caller and queues its dispatch; the
    error of the handler comes out of the render of the host, which
    fails. *)
Theorem stale_reduction_hides_handler_error :
  In "take" (actionTypes stock)
  /\ state emptied_stock = JsNumber 0
  /\ memo_state emptied_stock = JsNumber 1
  /\ (exists handler,
        lookup "take" (createActions stock (state emptied_stock))
        = Some handler
        /\ handler [nth 0 [] JsUndefined] = Throws (JsString "empty"))
  /\ snd (invoke stock "take" [] emptied_stock) = Returns tt
  /\ pending (fst (invoke stock "take" [] emptied_stock))
     = [ Dispatch (mkAction 1 "take" JsUndefined);
         SetLastAction (Some (mkAction 1 "take" JsUndefined)) ]
  /\ render stock (fst (invoke stock "take" [] emptied_stock))
     = Throws (JsString "empty").
Proof.
  split; [left; reflexivity|]. split; [reflexivity|]. split; [reflexivity|].
  split; [eexists; split; reflexivity|]. repeat split.
Qed.

(** ** The state bus *)

Lemma strict_eq_sym (a b : JsValue) : strict_eq a b = strict_eq b a.
Proof.
  destruct a, b; simpl; try reflexivity.
  - destruct b, b0; reflexivity.
  - apply Z.eqb_sym.
  - apply String.eqb_sym.
  - apply Nat.eqb_sym.
  - apply Nat.eqb_sym.
Qed.



Lemma state_events_observers (out : list (Observer * JsValue)) (e : Event) :
  In e (state_events out) ->
  exists d, In d out /\ e = StateNotification (fst d) (snd d).
Proof.
  unfold state_events. rewrite in_map_iff. intros [d [<- H]]. eauto.
Qed.

(** Pushing [v] into a coherent bus: the bus holds [v], stays coherent,
    keeps its subscribers, the state observable holds [v], and only
    subscribers are notified, with [v]. *)
Lemma StateBus_next_spec (v : JsValue) (sb : StateBus) :
  bus_coherent sb ->
  bus_value (fst (StateBus_next v sb)) = v
  /\ bus_coherent (fst (StateBus_next v sb))
  /\ identical (StateObservable.value (state_obs (fst (StateBus_next v sb)))) v
  /\ StateObservable.notifier (state_obs (fst (StateBus_next v sb)))
     = StateObservable.notifier (state_obs sb)
  /\ (forall e, In e (snd (StateBus_next v sb)) ->
        exists o, e = StateNotification o v
                  /\ In o (StateObservable.notifier (state_obs sb))).
Proof.
  unfold bus_coherent, StateBus_next, StateBus_deliver, distinctUntilChanged.
  intros Hc. simpl. rewrite Hc.
  destruct (strict_eq (StateObservable.value (state_obs sb)) v) eqn:E; simpl.
  - repeat split; try assumption.
    + right. rewrite strict_eq_sym. exact E.
    + contradiction.
  - unfold StateObservable.source_next, strict_neq.
    rewrite strict_eq_sym, E. simpl. repeat split.
    + left. reflexivity.
    + intros e He. apply state_events_observers in He.
      destruct He as [d [Hd ->]]. unfold Subject_next in Hd.
      apply in_map_iff in Hd. destruct Hd as [o [<- Ho]]. simpl. eauto.
Qed.


Lemma StateBus_create_spec (s : JsValue) :
  StateBus_create s
  = ({| bus_value := s; distinct_key := Some s;
        state_obs := {| StateObservable.value := s;
                        StateObservable.notifier := [] |} |}, []).
Proof.
  unfold StateBus_create, StateBus_deliver, StateObservable.create,
    StateObservable.source_next. simpl.
  destruct (strict_neq s s); reflexivity.
Qed.

Lemma ActionBus_next_observers (action v : JsValue)
  (observers : list ActionSubscriber) (e : Event) :
  In e (ActionBus_next action v observers) ->
  exists s, In s observers /\ accepts (input s) action = true
            /\ e = ActionNotification (subscriber s) action v.
Proof.
  unfold ActionBus_next. rewrite in_flat_map. intros [s [Hs He]].
  destruct (accepts (input s) action) eqn:E.
  - destruct He as [<-|[]]. eauto.
  - contradiction.
Qed.


(** ** What each step leaves alone *)

(** Two containers with the same buses, subscriptions and activation
    count. *)
Lemma hook_inv_frame (h h' : Hook) :
  stateRef h' = stateRef h -> actionRef h' = actionRef h ->
  effectSubscriptions h' = effectSubscriptions h ->
  activations h' = activations h ->
  hook_inv h -> hook_inv h'.
Proof.
  unfold hook_inv, registered. intros -> -> -> ->. tauto.
Qed.


Lemma dispatchWithEpic_frame (A : Args) (type : string)
  (arguments : list JsValue) (h : Hook) :
  let h' := fst (dispatchWithEpic A type arguments h) in
  stateRef h' = stateRef h /\ actionRef h' = actionRef h
  /\ effectSubscriptions h' = effectSubscriptions h
  /\ activations h' = activations h.
Proof.
  unfold dispatchWithEpic. cbv zeta.
  destruct (reducer A (opts h) (memo_state h) _) as [nextState|e]; simpl.
  - destruct (strict_neq nextState JsUndefined); simpl; tauto.
  - tauto.
Qed.

Lemma invoke_frame (A : Args) (name : string) (arguments : list JsValue)
  (h : Hook) :
  let h' := fst (invoke A name arguments h) in
  stateRef h' = stateRef h /\ actionRef h' = actionRef h
  /\ effectSubscriptions h' = effectSubscriptions h
  /\ activations h' = activations h.
Proof.
  unfold invoke, wrappedActions.
  rewrite (lookup_fold_assign (fun type payload => dispatchWithEpic A type payload)).
  destruct (existsb (String.eqb name) (actionTypes A)); simpl.
  - apply dispatchWithEpic_frame.
  - tauto.
Qed.

Lemma render_frame (A : Args) (h h' : Hook) :
  render A h = Returns h' ->
  stateRef h' = stateRef h /\ actionRef h' = actionRef h
  /\ effectSubscriptions h' = effectSubscriptions h
  /\ activations h' = activations h
  /\ opts h' = opts h /\ memo_state h' = memo_state h /\ pending h' = [].
Proof.
  unfold render.
  destruct (apply_updates _ _ _ _) as [[s la]|e]; [|discriminate].
  intros E. injection E as <-. simpl. tauto.
Qed.

(** The publication effect either does nothing or pushes the state, then
    the action, and asks for the marker to be cleared. *)
Lemma publication_effect_cases (h : Hook) :
  (publication_effect h = (h, [])
   /\ (lastAction h = None \/ stateRef h = None \/ actionRef h = None))
  \/ (exists action sb observers,
        lastAction h = Some action /\ stateRef h = Some sb
        /\ actionRef h = Some observers
        /\ stateRef (fst (publication_effect h))
           = Some (fst (StateBus_next (state h) sb))
        /\ actionRef (fst (publication_effect h)) = Some observers
        /\ effectSubscriptions (fst (publication_effect h))
           = effectSubscriptions h
        /\ activations (fst (publication_effect h)) = activations h
        /\ state (fst (publication_effect h)) = state h
        /\ pending (fst (publication_effect h))
           = pending h ++ [SetLastAction None]
        /\ snd (publication_effect h)
           = snd (StateBus_next (state h) sb)
             ++ ActionBus_next action
                  (StateObservable.value
                     (state_obs (fst (StateBus_next (state h) sb))))
                  observers).
Proof.
  unfold publication_effect.
  destruct (lastAction h) as [action|]; [|left; tauto].
  destruct (stateRef h) as [sb|]; [|left; tauto].
  destruct (actionRef h) as [observers|]; [|left; tauto].
  right. exists action, sb, observers.
  destruct (StateBus_next (state h) sb) as [sb' ev]. simpl. tauto.
Qed.

Lemma registered_after_publication (h : Hook) (o : Observer) :
  registered o (fst (publication_effect h)) <-> registered o h.
Proof.
  destruct (publication_effect_cases h) as [[-> _]|Hp]; [reflexivity|].
  destruct Hp as [a [sb [obs [_ [Hs [Ha [Hs' [Ha' _]]]]]]]].
  unfold registered. rewrite Hs, Ha, Hs', Ha'.
  assert (N : StateObservable.notifier (state_obs (fst (StateBus_next (state h) sb)))
              = StateObservable.notifier (state_obs sb)).
  { unfold StateBus_next, StateBus_deliver. simpl.
    destruct (distinctUntilChanged (distinct_key sb) (state h)) as [k [|]]; simpl.
    - pose proof (source_next_notifier (state h) (state_obs sb)) as N.
      destruct (StateObservable.source_next (state h) (state_obs sb)). exact N.
    - reflexivity. }
  split; (intros [[x [E H]]|[x [E H]]];
          [left; injection E as <-; eexists; split; [reflexivity|] |
           right; injection E as <-; eexists; split; [reflexivity|exact H]]).
  - rewrite <- N. exact H.
  - rewrite N. exact H.
Qed.


Lemma publication_effect_inv (h : Hook) :
  hook_inv h -> hook_inv (fst (publication_effect h)).
Proof.
  intros Hi.
  destruct (publication_effect_cases h) as [[-> _]|Hp]; [exact Hi|].
  destruct Hp as [a [sb [obs [_ [Hs [Ha [Hs' [Ha' [He [Hn _]]]]]]]]]].
  destruct Hi as [[sb0 [obs0 [Hs0 [Ha0 Hc]]]] [Hr Hlt]].
  rewrite Hs in Hs0. injection Hs0 as <-.
  split; [|split].
  - exists (fst (StateBus_next (state h) sb)), obs.
    split; [exact Hs'|]. split; [exact Ha'|].
    now apply StateBus_next_spec.
  - intros o Ho. rewrite He. apply Hr.
    now apply registered_after_publication.
  - intros o Ho. rewrite Hn. apply Hlt. now rewrite <- He.
Qed.

(** ** Activation and cleanup *)

Lemma subscribe_epic_spec (o : Observer) (e : Epic) (sb : StateBus)
  (observers : list ActionSubscriber) :
  let '(sb', observers', ev) := subscribe_epic o e sb observers in
  bus_value sb' = bus_value sb
  /\ distinct_key sb' = distinct_key sb
  /\ StateObservable.value (state_obs sb') = StateObservable.value (state_obs sb)
  /\ (forall x, In x (StateObservable.notifier (state_obs sb')) ->
        In x (StateObservable.notifier (state_obs sb)) \/ x = o)
  /\ (forall x, In x (map subscriber observers') ->
        In x (map subscriber observers) \/ x = o)
  /\ (forall x, In x ev -> event_observer x = o).
Proof.
  unfold subscribe_epic.
  assert (Hobs : forall x,
            In x (map subscriber
                    match on_action e with
                    | Some f => observers ++ [{| subscriber := o; input := f |}]
                    | None => observers
                    end) ->
            In x (map subscriber observers) \/ x = o).
  { intros x. destruct (on_action e); [|tauto].
    rewrite map_app, in_app_iff. simpl. intuition. }
  destruct (on_state e); simpl.
  - repeat split; auto.
    + intros x. rewrite in_app_iff. simpl. intuition.
    + intros x [<-|[]]. reflexivity.
  - repeat split; auto. contradiction.
Qed.

Lemma subscribe_epics_spec (activation : nat) (epics : list Epic) :
  forall (i : nat) (sb : StateBus) (observers : list ActionSubscriber),
  let '(sb', observers', subs, ev) :=
    subscribe_epics activation i epics sb observers in
  bus_value sb' = bus_value sb
  /\ distinct_key sb' = distinct_key sb
  /\ StateObservable.value (state_obs sb') = StateObservable.value (state_obs sb)
  /\ (forall x, In x (StateObservable.notifier (state_obs sb')) ->
        In x (StateObservable.notifier (state_obs sb)) \/ In x subs)
  /\ (forall x, In x (map subscriber observers') ->
        In x (map subscriber observers) \/ In x subs)
  /\ (forall x, In x subs -> activation_id x = activation)
  /\ (forall x, In x ev -> In (event_observer x) subs).
Proof.
  induction epics as [|e epics IH]; intros i sb observers; simpl.
  - repeat split; auto; contradiction.
  - pose proof (subscribe_epic_spec
                  {| activation_id := activation; epic_index := i |}
                  e sb observers) as H1.
    destruct (subscribe_epic _ e sb observers) as [[sb1 obs1] ev1].
    specialize (IH (S i) sb1 obs1).
    destruct (subscribe_epics activation (S i) epics sb1 obs1)
      as [[[sb2 obs2] subs] ev2].
    destruct H1 as [B1 [K1 [V1 [N1 [O1 E1]]]]].
    destruct IH as [B2 [K2 [V2 [N2 [O2 [S2 E2]]]]]].
    repeat split; try congruence.
    + intros x Hx. destruct (N2 x Hx) as [H|H]; [|right; right; exact H].
      destruct (N1 x H) as [H'|H']; [left; exact H'|right; left; now symmetry].
    + intros x Hx. destruct (O2 x Hx) as [H|H]; [|right; right; exact H].
      destruct (O1 x H) as [H'|H']; [left; exact H'|right; left; now symmetry].
    + intros x [<-|Hx]; [reflexivity|now apply S2].
    + intros x Hx. apply in_app_iff in Hx. destruct Hx as [Hx|Hx].
      * left. symmetry. now apply E1.
      * right. now apply E2.
Qed.

(** What the mount effect builds, whatever the container was before. *)
Lemma mount_effect_spec (A : Args) (shared : Opts) (epics : list Epic)
  (h : Hook) :
  let h' := fst (mount_effect A shared epics h) in
  hook_inv h'
  /\ activations h' = S (activations h)
  /\ (forall o, registered o h' -> activation_id o = activations h)
  /\ (forall e, In e (snd (mount_effect A shared epics h)) ->
        activation_id (event_observer e) = activations h).
Proof.
  unfold mount_effect. rewrite StateBus_create_spec.
  pose proof (subscribe_epics_spec (activations h) epics 0
                {| bus_value := initializedState A shared;
                   distinct_key := Some (initializedState A shared);
                   state_obs :=
                     {| StateObservable.value := initializedState A shared;
                        StateObservable.notifier := [] |} |} []) as H.
  destruct (subscribe_epics (activations h) 0 epics _ [])
    as [[[sb obs] subs] ev].
  simpl in H. destruct H as [B [K [V [N [O [S E]]]]]]. simpl.
  assert (R : forall o,
            registered o
              {| opts := opts h; state := state h; lastAction := lastAction h;
                 pending := pending h; memo_state := memo_state h;
                 stateRef := Some sb; actionRef := Some obs;
                 effectSubscriptions := subs;
                 activations := Datatypes.S (activations h);
                 next_ref := next_ref h |} -> In o subs).
  { intros o [[x [Ex Hx]]|[x [Ex Hx]]]; simpl in Ex; injection Ex as <-.
    - destruct (N o Hx) as [[]|Hs]. exact Hs.
    - destruct (O o Hx) as [[]|Hs]. exact Hs. }
  split; [|split; [reflexivity|split]].
  - split; [|split].
    + exists sb, obs. simpl. repeat split. unfold bus_coherent. congruence.
    + exact R.
    + simpl. intros o Ho. rewrite (S o Ho). lia.
  - intros o Ho. apply S. now apply R.
  - intros e He. apply S. now apply E.
Qed.




(** ** Invariants along a run *)

Lemma step_inv (A : Args) (h : Hook) (ev : list Event) (h' : Hook) :
  step A h ev h' -> hook_inv h -> hook_inv h'.
Proof.
  intros Hstep Hi.
  destruct Hstep as [name arguments h|h h' Hr|h|shared epics h].
  - pose proof (invoke_frame A name arguments h) as F. simpl in F.
    now apply (hook_inv_frame h).
  - pose proof (render_frame A h h' Hr) as F.
    now apply (hook_inv_frame h).
  - now apply publication_effect_inv.
  - apply mount_effect_spec.
Qed.

Lemma run_inv (A : Args) (h : Hook) (ev : list Event) (h' : Hook) :
  run A h ev h' -> hook_inv h -> hook_inv h'.
Proof.
  induction 1 as [h|h ev h1 ev' h2 _ IH Hs]; intros Hi.
  - exact Hi.
  - apply (step_inv A h1 ev' h2 Hs). now apply IH.
Qed.

Lemma reachable_inv (A : Args) (h : Hook) : reachable A h -> hook_inv h.
Proof.
  intros [defaults [shared [epics [ev Hrun]]]].
  apply (run_inv A _ ev h Hrun). apply mount_effect_spec.
Qed.





Lemma mounted_counter_reachable : reachable (counter no_draft) mounted_counter.
Proof.
  exists defaultOptions, (snd (first_render (counter no_draft) defaultOptions)),
    sample_epics, [].
  apply run_done.
Qed.

(** ** One update cycle: invocation, render, publication *)

Lemma apply_updates_app (r : Reducer) (us us' : list Update)
  (s : JsValue) (la : option JsValue) :
  apply_updates r (us ++ us') s la
  = match apply_updates r us s la with
    | Returns (s1, la1) => apply_updates r us' s1 la1
    | Throws e => Throws e
    end.
Proof.
  revert s la. induction us as [|[action|v] us IH]; intros s la; simpl.
  - reflexivity.
  - destruct (r s action); [apply IH|reflexivity].
  - apply IH.
Qed.

(** What a callback that returns normally has done. *)
Lemma dispatchWithEpic_returns (A : Args) (type : string)
  (arguments : list JsValue) (h h1 : Hook) :
  dispatchWithEpic A type arguments h = (h1, Returns tt) ->
  let action := mkAction (next_ref h) type (nth 0 arguments JsUndefined) in
  exists nextState,
    reducer A (opts h) (memo_state h) action = Returns nextState
    /\ pending h1
       = pending h
         ++ (if strict_neq nextState JsUndefined then [Dispatch action] else [])
         ++ [SetLastAction (Some action)]
    /\ state h1 = state h /\ lastAction h1 = lastAction h
    /\ opts h1 = opts h.
Proof.
  unfold dispatchWithEpic. cbv zeta.
  destruct (reducer A (opts h) (memo_state h) _) as [nextState|e];
    [|discriminate].
  intros E. injection E as <-. exists nextState. split; [reflexivity|].
  destruct (strict_neq nextState JsUndefined); simpl;
    rewrite <- ?app_assoc; repeat split.
Qed.

(** The render that follows a callback finds its action in the marker. *)
Lemma render_after_callback (A : Args) (type : string)
  (arguments : list JsValue) (h h1 h2 : Hook) :
  dispatchWithEpic A type arguments h = (h1, Returns tt) ->
  render A h1 = Returns h2 ->
  lastAction h2
  = Some (mkAction (next_ref h) type (nth 0 arguments JsUndefined)).
Proof.
  intros Hd Hr. apply dispatchWithEpic_returns in Hd.
  destruct Hd as [n [_ [Hp _]]]. unfold render in Hr. rewrite Hp in Hr.
  rewrite app_assoc, apply_updates_app in Hr.
  destruct (apply_updates _ (pending h ++ _) _ _) as [[s1 la1]|e];
    [|discriminate].
  simpl in Hr. injection Hr as <-. reflexivity.
Qed.

(** The facts about a publication that the next theorems share. *)
Lemma publication_of_marker (h : Hook) (action : JsValue) :
  hook_inv h -> lastAction h = Some action ->
  exists sb sb' observers,
    stateRef h = Some sb /\ actionRef h = Some observers
    /\ stateRef (fst (publication_effect h)) = Some sb'
    /\ sb' = fst (StateBus_next (state h) sb)
    /\ bus_value sb' = state h
    /\ identical (StateObservable.value (state_obs sb')) (state h)
    /\ snd (publication_effect h)
       = snd (StateBus_next (state h) sb)
         ++ ActionBus_next action (StateObservable.value (state_obs sb'))
              observers
    /\ pending (fst (publication_effect h)) = pending h ++ [SetLastAction None].
Proof.
  intros [[sb [obs [Hs [Ha Hc]]]] _] Hl.
  destruct (publication_effect_cases h) as [[_ [H|[H|H]]]|Hp];
    try congruence.
  destruct Hp as [a [sb0 [obs0 [Hl0 [Hs0 [Ha0 [Hs' [_ [_ [_ [_ [Hp Hev]]]]]]]]]]]].
  assert (a = action) by congruence. assert (sb0 = sb) by congruence.
  assert (obs0 = obs) by congruence. subst a sb0 obs0.
  destruct (StateBus_next_spec (state h) sb Hc) as [Hb [_ [Hid _]]].
  exists sb, (fst (StateBus_next (state h) sb)), obs. tauto.
Qed.

(** C10, amended: the object in [stateRef$.current] is the piped
    [BehaviorSubject], still a subject, so for a mounted container whose
    marker is set the publication pass completes: the bus then holds the
    current state, the state observable holds it too, the action is
    pushed afterwards, and the marker is asked to be cleared. *)
Theorem publication_pushes_state_into_bus (A : Args) (h : Hook)
  (action : JsValue) :
  reachable A h -> lastAction h = Some action ->
  exists sb sb' observers,
    stateRef h = Some sb /\ actionRef h = Some observers
    /\ stateRef (fst (publication_effect h)) = Some sb'
    /\ bus_value sb' = state h
    /\ identical (StateObservable.value (state_obs sb')) (state h)
    /\ snd (publication_effect h)
       = snd (StateBus_next (state h) sb)
         ++ ActionBus_next action (StateObservable.value (state_obs sb'))
              observers
    /\ pending (fst (publication_effect h)) = pending h ++ [SetLastAction None].
Proof.
  intros Hreach Hl.
  destruct (publication_of_marker h action (reachable_inv A h Hreach) Hl)
    as [sb [sb' [obs H]]].
  exists sb, sb', obs. tauto.
Qed.




(** ** The theorems on the counter *)




Lemma incremented_counter_reachable :
  reachable (counter no_draft) incremented_counter.
Proof.
  exists defaultOptions, (snd (first_render (counter no_draft) defaultOptions)),
    sample_epics, (([] ++ []) ++ []).
  apply (run_more _ _ _
           (fst (invoke (counter no_draft) "increment" [] mounted_counter))).
  - apply (run_more _ _ _ mounted_counter).
    + apply run_done.
    + apply step_invoke.
  - apply step_render. reflexivity.
Qed.


(** C10 on the counter: the marker set by [increment()] is published, the
    bus and the state observable then hold 1. *)
Lemma publication_pushes_state_into_bus_witness :
  exists sb',
    stateRef (fst (publication_effect incremented_counter)) = Some sb'
    /\ bus_value sb' = JsNumber 1
    /\ identical (StateObservable.value (state_obs sb')) (JsNumber 1).
Proof.
  destruct (publication_pushes_state_into_bus (counter no_draft)
              incremented_counter (mkAction 0 "increment" JsUndefined)
              incremented_counter_reachable eq_refl)
    as [sb [sb' [observers [_ [_ [H1 [H2 [H3 _]]]]]]]].
  exists sb'. auto.
Defined.

(** C10 as stated fails on the counter: after [increment()] the
    publication pass does push the post-reduction state 1 into the state
    bus, the state observable takes it and notifies its subscriber, and
    the action follows. *)
Lemma publication_pass_publishes_the_state :
  state incremented_counter = JsNumber 1
  /\ (exists sb',
        stateRef (fst (publication_effect incremented_counter)) = Some sb'
        /\ bus_value sb' = JsNumber 1
        /\ StateObservable.value (state_obs sb') = JsNumber 1)
  /\ stateRef (fst (publication_effect incremented_counter))
     <> stateRef incremented_counter
  /\ snd (publication_effect incremented_counter)
     = [ StateNotification {| activation_id := 0; epic_index := 0 |}
           (JsNumber 1);
         ActionNotification {| activation_id := 0; epic_index := 1 |}
           (mkAction 0 "increment" JsUndefined) (JsNumber 1) ].
Proof.
  split; [reflexivity|]. split; [|split; [discriminate|reflexivity]].
  eexists. split; [reflexivity|]. split; reflexivity.
Qed.

(* ================================================================== *)
(** * Part III: further properties of the code                         *)
(* ================================================================== *)

(** ** [ofType]: names as a set, stages in a pipe *)

Lemma has_type_among_ext (keys1 keys2 : list string) (item : JsValue) :
  (forall k, In k keys1 <-> In k keys2) ->
  has_type_among keys1 item = has_type_among keys2 item.
Proof.
  intros Hset. destruct item as [ | | b | n | | s | r elems | r fields];
    try reflexivity. simpl.
  destruct (lookup "type" fields) as [[ | | b | n | | t | r' e' | r' f']|];
    try reflexivity.
  apply eq_true_iff_eq. rewrite !existsb_exists.
  split; intros [k [Hk E]]; exists k; (split; [now apply Hset|exact E]).
Qed.

(** X1: the names given to [ofType] count as a set: two lists with the
    same members, in any order and with any repetition (one name against
    the same name twice, which takes the other branch of the predicate),
    select the same items. *)
Theorem ofType_names_as_a_set (keys1 keys2 : list string)
  (source : list JsValue) :
  (forall k, In k keys1 <-> In k keys2) ->
  ofType keys1 source = ofType keys2 source.
Proof.
  intros Hset. unfold ofType, rx_filter. apply filter_ext. intros item.
  rewrite !ofType_predicate_spec. now apply has_type_among_ext.
Qed.

Lemma ofType_names_as_a_set_witness :
  ofType ["A"] sample_stream = ofType ["A"; "A"] sample_stream
  /\ ofType ["A"; "B"] sample_stream = ofType ["B"; "A"; "B"] sample_stream.
Proof.
  split; apply ofType_names_as_a_set; intros k; simpl; tauto.
Defined.

Lemma filter_twice {X : Type} (p q : X -> bool) (l : list X) :
  filter p (filter q l) = filter (fun x => q x && p x) l.
Proof.
  induction l as [|x l IH]; simpl; [reflexivity|].
  destruct (q x); simpl; [destruct (p x)|]; now rewrite IH.
Qed.

Lemma existsb_common (t : string) (keys1 keys2 : list string) :
  existsb (String.eqb t)
    (filter (fun k => existsb (String.eqb k) keys2) keys1)
  = existsb (String.eqb t) keys1 && existsb (String.eqb t) keys2.
Proof.
  induction keys1 as [|k ks IH]; simpl; [reflexivity|].
  destruct (String.eqb t k) eqn:E; simpl.
  - apply String.eqb_eq in E. subst k.
    destruct (existsb (String.eqb t) keys2) eqn:E2; simpl.
    + now rewrite String.eqb_refl.
    + rewrite IH, ?E2. apply andb_false_r.
  - destruct (existsb (String.eqb k) keys2); simpl; [rewrite E|]; exact IH.
Qed.

Lemma has_type_among_common (keys1 keys2 : list string) (item : JsValue) :
  has_type_among (filter (fun k => existsb (String.eqb k) keys2) keys1) item
  = has_type_among keys2 item && has_type_among keys1 item.
Proof.
  destruct item as [ | | b | n | | s | r elems | r fields]; try reflexivity.
  simpl.
  destruct (lookup "type" fields) as [[ | | b | n | | t | r' e' | r' f']|];
    try reflexivity.
  rewrite existsb_common. apply andb_comm.
Qed.

(** X2: two [ofType] stages in a pipe keep the items whose type is among
    the names of both; the order of the stages does not matter and a
    stage repeated changes nothing. *)
Theorem ofType_stages_intersect (keys1 keys2 : list string)
  (source : list JsValue) :
  ofType keys1 (ofType keys2 source)
  = ofType (filter (fun k => existsb (String.eqb k) keys2) keys1) source
  /\ ofType keys1 (ofType keys2 source) = ofType keys2 (ofType keys1 source)
  /\ ofType keys1 (ofType keys1 source) = ofType keys1 source.
Proof.
  assert (Both : forall k1 k2,
            ofType k1 (ofType k2 source)
            = filter (fun x => has_type_among k2 x && has_type_among k1 x)
                source).
  { intros k1 k2. unfold ofType, rx_filter. rewrite filter_twice.
    apply filter_ext. intros x. now rewrite !ofType_predicate_spec. }
  split; [|split].
  - rewrite Both. unfold ofType, rx_filter. apply filter_ext. intros x.
    now rewrite ofType_predicate_spec, has_type_among_common.
  - rewrite !Both. apply filter_ext. intros x. apply andb_comm.
  - rewrite Both. unfold ofType, rx_filter. apply filter_ext. intros x.
    rewrite ofType_predicate_spec. apply andb_diag.
Qed.

(** ** [StateObservable]: what observers see over time *)

Section StateObservableRuns.
Import StateObservable.
Context {O : Type}.

Lemma source_run_app (vs ws : list JsValue) (so : t O) :
  source_run (vs ++ ws) so
  = (fst (source_run ws (fst (source_run vs so))),
     snd (source_run vs so) ++ snd (source_run ws (fst (source_run vs so)))).
Proof.
  revert so. induction vs as [|v vs IH]; intros so; simpl.
  - now destruct (source_run ws so).
  - destruct (source_next v so) as [so1 out1]. rewrite IH.
    destruct (source_run vs so1) as [so2 out2]. simpl.
    now rewrite app_assoc.
Qed.

Lemma source_run_notifier (vs : list JsValue) (so : t O) :
  notifier (fst (source_run vs so)) = notifier so.
Proof.
  revert so. induction vs as [|v vs IH]; intros so; simpl; [reflexivity|].
  pose proof (source_next_notifier v so) as N.
  destruct (source_next v so) as [so1 out1]. specialize (IH so1).
  destruct (source_run vs so1) as [so2 out2]. simpl in *. congruence.
Qed.

(** X3: whatever was published before, a subscriber that arrives after
    the value [v] was published is handed [v] (the stored value is [v]
    itself or [===] to it), and publishing never changes who is
    subscribed. *)
Theorem late_subscriber_receives_latest (so : t O) (vs : list JsValue)
  (v : JsValue) (o : O) :
  let so' := fst (source_run (vs ++ [v]) so) in
  identical (value so') v
  /\ snd (subscribe {| destination := o; closed := false |} so')
     = [(o, value so')]
  /\ notifier so' = notifier so.
Proof.
  cbv zeta. split; [|split].
  - rewrite source_run_app. simpl.
    set (so1 := fst (source_run vs so)). unfold source_next, strict_neq.
    destruct (strict_eq v (value so1)) eqn:E; simpl.
    + right. exact E.
    + left. reflexivity.
  - reflexivity.
  - apply source_run_notifier.
Qed.

Lemma received_app (same : O -> O -> bool) (o : O)
  (out1 out2 : list (O * JsValue)) :
  received same o (out1 ++ out2)
  = received same o out1 ++ received same o out2.
Proof. unfold received. now rewrite filter_app, map_app. Qed.

Lemma received_broadcast (same : O -> O -> bool) (o : O)
  (observers : list O) (v : JsValue) :
  received same o (Subject_next observers v)
  = repeat v (List.length (filter (same o) observers)).
Proof.
  unfold received, Subject_next.
  induction observers as [|x xs IH]; simpl; [reflexivity|].
  destruct (same o x); simpl; now rewrite IH.
Qed.

(** X4: an observer subscribed once never sees a value that is [===] to
    the one it saw just before, the stored value at the start of the run
    counting as the one seen last. *)
Theorem notifications_keep_changing (same : O -> O -> bool) (o : O)
  (vs : list JsValue) (so : t O) :
  List.length (filter (same o) (notifier so)) = 1 ->
  changing (value so) (received same o (snd (source_run vs so))).
Proof.
  revert so. induction vs as [|v vs IH]; intros so Hone; simpl; [exact I|].
  unfold source_next at 1. unfold strict_neq.
  destruct (strict_eq v (value so)) eqn:E; simpl.
  - specialize (IH so Hone). destruct (source_run vs so). exact IH.
  - specialize (IH {| value := v; notifier := notifier so |} Hone).
    destruct (source_run vs {| value := v; notifier := notifier so |}).
    simpl in *. rewrite received_app, received_broadcast, Hone. simpl.
    split; [exact E|exact IH].
Qed.

End StateObservableRuns.

Lemma notifications_keep_changing_witness :
  changing (JsNumber 5)
    (StateObservable.received Nat.eqb 7%nat
       (snd (StateObservable.source_run
               [JsNumber 5; JsNumber 6; JsNumber 6; JsNaN; JsNaN; JsNumber 5]
               sample_observable)))
  /\ StateObservable.received Nat.eqb 7%nat
       (snd (StateObservable.source_run
               [JsNumber 5; JsNumber 6; JsNumber 6; JsNaN; JsNaN; JsNumber 5]
               sample_observable))
     = [JsNumber 6; JsNaN; JsNaN; JsNumber 5].
Proof.
  split; [|reflexivity].
  exact (notifications_keep_changing Nat.eqb 7%nat
           [JsNumber 5; JsNumber 6; JsNumber 6; JsNaN; JsNaN; JsNumber 5]
           sample_observable eq_refl).
Defined.

(** ** Options over several calls *)

(** X5: line 113 folds the options of every call into the one default
    object, so the flag a call resolves is the last one that this call or
    an earlier one passed explicitly, and the value the object held
    before when none did; the same goes for [init]. *)
Theorem options_follow_last_explicit_call (calls : list Options) (d : Opts) :
  ((forall o, In o calls -> opt_immer o = None) ->
   immer (fold_left Object_assign calls d) = immer d)
  /\ (forall before o after b,
        calls = before ++ o :: after ->
        opt_immer o = Some b ->
        (forall o', In o' after -> opt_immer o' = None) ->
        immer (fold_left Object_assign calls d) = b)
  /\ (forall before o after f,
        calls = before ++ o :: after ->
        opt_init o = Some f ->
        (forall o', In o' after -> opt_init o' = None) ->
        init (fold_left Object_assign calls d) = Some f).
Proof.
  assert (Hi : forall l d0, (forall o, In o l -> opt_immer o = None) ->
             immer (fold_left Object_assign l d0) = immer d0).
  { induction l as [|o l IH]; intros d0 Hn; simpl; [reflexivity|].
    rewrite IH by (intros; apply Hn; now right).
    simpl. now rewrite (Hn o (or_introl eq_refl)). }
  assert (Hf : forall l d0, (forall o, In o l -> opt_init o = None) ->
             init (fold_left Object_assign l d0) = init d0).
  { induction l as [|o l IH]; intros d0 Hn; simpl; [reflexivity|].
    rewrite IH by (intros; apply Hn; now right).
    simpl. now rewrite (Hn o (or_introl eq_refl)). }
  split; [apply Hi|]. split.
  - intros before o after b -> Ho Hafter.
    rewrite fold_left_app. simpl. rewrite Hi by exact Hafter.
    simpl. now rewrite Ho.
  - intros before o after f -> Ho Hafter.
    rewrite fold_left_app. simpl. rewrite Hf by exact Hafter.
    simpl. now rewrite Ho.
Qed.

Lemma options_follow_last_explicit_call_witness :
  immer (fold_left Object_assign [no_options; no_options] defaultOptions)
  = true
  /\ immer (fold_left Object_assign [no_options; no_draft; no_options]
              defaultOptions) = false.
Proof.
  destruct (options_follow_last_explicit_call [no_options; no_options]
              defaultOptions) as [Hnone _].
  destruct (options_follow_last_explicit_call
              [no_options; no_draft; no_options] defaultOptions)
    as [_ [Hlast _]].
  split.
  - apply Hnone. intros o [<-|[<-|[]]]; reflexivity.
  - apply (Hlast [no_options] no_draft [no_options] false); try reflexivity.
    intros o' [<-|[]]. reflexivity.
Defined.

(** ** The callback surface: what a call touches *)

Lemma dispatchWithEpic_cells (A : Args) (type : string)
  (arguments : list JsValue) (h : Hook) :
  let h' := fst (dispatchWithEpic A type arguments h) in
  state h' = state h /\ lastAction h' = lastAction h
  /\ memo_state h' = memo_state h /\ opts h' = opts h
  /\ exists more, pending h' = pending h ++ more.
Proof.
  unfold dispatchWithEpic. cbv zeta.
  destruct (reducer A (opts h) (memo_state h) _) as [nextState|e]; simpl.
  - destruct (strict_neq nextState JsUndefined); simpl;
      do 4 (split; [reflexivity|]);
      eexists; rewrite <- ?app_assoc; reflexivity.
  - do 4 (split; [reflexivity|]). exists []. now rewrite app_nil_r.
Qed.

Lemma invoke_cells (A : Args) (name : string) (arguments : list JsValue)
  (h : Hook) :
  let h' := fst (invoke A name arguments h) in
  state h' = state h /\ lastAction h' = lastAction h
  /\ memo_state h' = memo_state h /\ opts h' = opts h
  /\ exists more, pending h' = pending h ++ more.
Proof.
  unfold invoke, wrappedActions.
  rewrite (lookup_fold_assign (fun type payload => dispatchWithEpic A type payload)).
  destruct (existsb (String.eqb name) (actionTypes A)); simpl.
  - apply dispatchWithEpic_cells.
  - do 4 (split; [reflexivity|]). exists []. now rewrite app_nil_r.
Qed.

(** ** The state the callbacks close over *)

Lemma step_keeps_closure (A : Args) (h : Hook) (ev : list Event) (h' : Hook) :
  step A h ev h' -> memo_state h' = memo_state h /\ opts h' = opts h.
Proof.
  intros Hstep.
  destruct Hstep as [name arguments h|h h' Hr|h|shared epics h].
  - pose proof (invoke_cells A name arguments h) as C. cbv zeta in C. tauto.
  - pose proof (render_frame A h h' Hr). tauto.
  - unfold publication_effect.
    destruct (lastAction h); [|tauto].
    destruct (stateRef h) as [sb|]; [|tauto].
    destruct (actionRef h); [|tauto].
    destruct (StateBus_next (state h) sb). simpl. tauto.
  - unfold reactivate, mount_effect.
    destruct (StateBus_create _) as [sb0 ev0].
    destruct (subscribe_epics _ 0 epics sb0 []) as [[[sb obs] subs] ev].
    simpl. tauto.
Qed.

Lemma reachable_closure (A : Args) (h : Hook) :
  reachable A h -> memo_state h = initializedState A (opts h).
Proof.
  intros [defaults [shared [epics [ev Hrun]]]].
  remember (fst (mount_effect A shared epics (fst (first_render A defaults))))
    as h0 eqn:E0.
  assert (H0 : memo_state h0 = initializedState A (opts h0)).
  { subst h0. unfold mount_effect.
    destruct (StateBus_create _) as [sb0 ev0].
    destruct (subscribe_epics _ 0 epics sb0 []) as [[[sb obs] subs] ev1].
    reflexivity. }
  clear E0. induction Hrun as [h|h ev h1 ev' h2 _ IH Hs]; [exact H0|].
  destruct (step_keeps_closure A h1 ev' h2 Hs) as [-> ->]. now apply IH.
Qed.

(** X8: the callbacks are memoised on the handler names, so they keep the
    state of the first render.  At any point of the life of a container
    outside draft mode, a call consults the handler on the initial state:
    whether it throws to the caller, whether a reducer update is queued,
    does not depend on the state stored at the time of the call. *)
Theorem callback_consults_initial_state (A : Args) (name : string)
  (arguments : list JsValue) (h : Hook) :
  reachable A h -> immer (opts h) = false -> In name (actionTypes A) ->
  let action := mkAction (next_ref h) name (nth 0 arguments JsUndefined) in
  memo_state h = initializedState A (opts h)
  /\ invoke A name arguments h
     = match lookup name (createActions A (initializedState A (opts h))) with
       | None => (h, Throws TypeError)
       | Some handler =>
           match handler [nth 0 arguments JsUndefined] with
           | Throws e => (h, Throws e)
           | Returns nextState =>
               (allocated
                  (setLastAction (Some action)
                     (if strict_neq nextState JsUndefined
                      then dispatch action h else h)),
                Returns tt)
           end
       end.
Proof.
  intros Hreach Him Hin action.
  pose proof (reachable_closure A h Hreach) as Hm.
  split; [exact Hm|].
  rewrite invoke_known_name by exact Hin.
  unfold dispatchWithEpic, reducer. cbv zeta. rewrite Him. simpl.
  unfold update. simpl. rewrite Hm.
  destruct (lookup name (createActions A (initializedState A (opts h))))
    as [handler|]; [|reflexivity].
  destruct (handler [nth 0 arguments JsUndefined]); reflexivity.
Qed.

Lemma emptied_stock_reachable : reachable stock emptied_stock.
Proof.
  exists defaultOptions, (snd (first_render stock defaultOptions)),
    sample_epics, (([] ++ []) ++ []).
  apply (run_more _ _ _
           (fst (invoke stock "take" []
                   (fst (mount_effect stock
                           (snd (first_render stock defaultOptions))
                           sample_epics
                           (fst (first_render stock defaultOptions))))))).
  - apply (run_more _ _ _
             (fst (mount_effect stock
                     (snd (first_render stock defaultOptions)) sample_epics
                     (fst (first_render stock defaultOptions))))).
    + apply run_done.
    + apply step_invoke.
  - apply step_render. reflexivity.
Qed.

(** X8 on the stock: the state is 0, where the handler throws, yet
    [take()] returns to its caller, having consulted the handler on 1. *)
Lemma callback_consults_initial_state_witness :
  state emptied_stock = JsNumber 0
  /\ memo_state emptied_stock = JsNumber 1
  /\ snd (invoke stock "take" [] emptied_stock) = Returns tt.
Proof.
  destruct (callback_consults_initial_state stock "take" [] emptied_stock
              emptied_stock_reachable eq_refl (or_introl eq_refl))
    as [Hm Hinv].
  split; [reflexivity|]. split; [exact Hm|]. rewrite Hinv. reflexivity.
Defined.

(** X9: with a host that applies the queued updates at its next render
    (the calls of a batch), when the reduction made by the callback
    succeeds on the captured state with a defined result but the handler
    throws on the stored state, the caller gets no error: the call
    returns, and the error comes out of that render. *)
Theorem handler_error_in_host_render (A : Args) (name : string)
  (arguments : list JsValue) (h : Hook) (nextState e : JsValue) :
  In name (actionTypes A) -> pending h = [] ->
  let action := mkAction (next_ref h) name (nth 0 arguments JsUndefined) in
  reducer A (opts h) (memo_state h) action = Returns nextState ->
  strict_neq nextState JsUndefined = true ->
  reducer A (opts h) (state h) action = Throws e ->
  snd (invoke A name arguments h) = Returns tt
  /\ render A (fst (invoke A name arguments h)) = Throws e.
Proof.
  intros Hin Hp action Hmemo Hdef Hthrow.
  rewrite invoke_known_name by exact Hin.
  unfold dispatchWithEpic. cbv zeta. fold action.
  rewrite Hmemo, Hdef. simpl. split; [reflexivity|].
  unfold render. simpl. rewrite Hp. simpl. now rewrite Hthrow.
Qed.

Lemma handler_error_in_host_render_witness :
  snd (invoke stock "take" [] emptied_stock) = Returns tt
  /\ render stock (fst (invoke stock "take" [] emptied_stock))
     = Throws (JsString "empty").
Proof.
  apply (handler_error_in_host_render stock "take" [] emptied_stock
           (JsNumber 0) (JsString "empty")); try reflexivity.
  left. reflexivity.
Defined.

(** ** The marker and the publication pass *)

Lemma dispatchWithEpic_next_ref (A : Args) (type : string)
  (arguments : list JsValue) (h h1 : Hook) :
  dispatchWithEpic A type arguments h = (h1, Returns tt) ->
  next_ref h1 = S (next_ref h).
Proof.
  unfold dispatchWithEpic. cbv zeta.
  destruct (reducer A (opts h) (memo_state h) _) as [nextState|e];
    [|discriminate].
  intros E. injection E as <-.
  now destruct (strict_neq nextState JsUndefined).
Qed.

Lemma hook_inv_after_callback (A : Args) (type : string)
  (arguments : list JsValue) (h : Hook) :
  hook_inv h -> hook_inv (fst (dispatchWithEpic A type arguments h)).
Proof.
  intros Hi. pose proof (dispatchWithEpic_frame A type arguments h) as F.
  cbv zeta in F. now apply (hook_inv_frame h).
Qed.

Lemma hook_inv_after_render (A : Args) (h h' : Hook) :
  render A h = Returns h' -> hook_inv h -> hook_inv h'.
Proof.
  intros Hr Hi. pose proof (render_frame A h h' Hr) as F.
  now apply (hook_inv_frame h).
Qed.

(** The action notifications of a publication all carry the marker. *)
Lemma publication_carries_marker (h : Hook) (action : JsValue) :
  hook_inv h -> lastAction h = Some action ->
  forall o a v,
    In (ActionNotification o a v) (snd (publication_effect h)) ->
    a = action
    /\ exists observers s,
         actionRef h = Some observers /\ In s observers
         /\ subscriber s = o /\ accepts (input s) action = true.
Proof.
  intros Hi Hl o a v He.
  destruct (publication_of_marker h action Hi Hl)
    as [sb [sb' [obs [Hs [Ha [_ [_ [_ [_ [Hev _]]]]]]]]]].
  assert (Hc : bus_coherent sb).
  { destruct Hi as [[sb0 [obs0 [Hs0 [_ Hc]]]] _]. congruence. }
  destruct (StateBus_next_spec (state h) sb Hc) as [_ [_ [_ [_ Hst]]]].
  rewrite Hev in He. apply in_app_iff in He. destruct He as [He|He].
  - destruct (Hst _ He) as [o' [E _]]. discriminate.
  - apply ActionBus_next_observers in He.
    destruct He as [s [Hin [Hacc E]]]. injection E as Eo Ea _.
    split; [exact Ea|]. exists obs, s. auto.
Qed.

(** X10: the marker is one cell.  When two callbacks return before the
    host renders, both reductions are queued but the second call
    overwrites the marker: the publication pass that follows delivers
    the action of the second call only. *)
Theorem batched_callbacks_publish_last_action (A : Args)
  (name1 name2 : string) (arguments1 arguments2 : list JsValue)
  (h0 h1 h2 h3 : Hook) :
  reachable A h0 ->
  In name1 (actionTypes A) -> In name2 (actionTypes A) ->
  invoke A name1 arguments1 h0 = (h1, Returns tt) ->
  invoke A name2 arguments2 h1 = (h2, Returns tt) ->
  render A h2 = Returns h3 ->
  let action1 :=
    mkAction (next_ref h0) name1 (nth 0 arguments1 JsUndefined) in
  let action2 :=
    mkAction (S (next_ref h0)) name2 (nth 0 arguments2 JsUndefined) in
  lastAction h3 = Some action2
  /\ action1 <> action2
  /\ (forall o a v,
        In (ActionNotification o a v) (snd (publication_effect h3)) ->
        a = action2).
Proof.
  intros Hreach Hin1 Hin2 H1 H2 Hr action1 action2.
  rewrite invoke_known_name in H1 by exact Hin1.
  rewrite invoke_known_name in H2 by exact Hin2.
  pose proof (dispatchWithEpic_next_ref _ _ _ _ _ H1) as Href.
  pose proof (render_after_callback A name2 arguments2 h1 h2 h3 H2 Hr) as Hl.
  rewrite Href in Hl. fold action2 in Hl.
  assert (Hi3 : hook_inv h3).
  { apply (hook_inv_after_render A h2 h3 Hr).
    replace h2 with (fst (dispatchWithEpic A name2 arguments2 h1))
      by now rewrite H2.
    apply hook_inv_after_callback.
    replace h1 with (fst (dispatchWithEpic A name1 arguments1 h0))
      by now rewrite H1.
    apply hook_inv_after_callback. now apply (reachable_inv A). }
  split; [exact Hl|]. split.
  - unfold action1, action2, mkAction. intros E. injection E as E _ _.
    lia.
  - intros o a v He.
    now destruct (publication_carries_marker h3 action2 Hi3 Hl o a v He).
Qed.

(** X10 on the counter: [incrementAsync()] then [increment()] in one
    batch; the state becomes 1 and only [increment] is published. *)
Lemma batched_callbacks_publish_last_action_witness :
  exists h3,
    render (counter no_draft)
      (fst (invoke (counter no_draft) "increment" []
              (fst (invoke (counter no_draft) "incrementAsync" []
                      mounted_counter)))) = Returns h3
    /\ state h3 = JsNumber 1
    /\ lastAction h3 = Some (mkAction 1 "increment" JsUndefined)
    /\ notified {| activation_id := 0; epic_index := 0 |}
         (snd (publication_effect h3))
       = [StateNotification {| activation_id := 0; epic_index := 0 |}
            (JsNumber 1)].
Proof.
  eexists. split; [reflexivity|]. split; [reflexivity|].
  split; [|reflexivity].
  exact (proj1 (batched_callbacks_publish_last_action (counter no_draft)
                  "incrementAsync" "increment" [] [] mounted_counter _ _ _
                  mounted_counter_reachable
                  (or_intror (or_introl eq_refl)) (or_introl eq_refl)
                  eq_refl eq_refl eq_refl)).
Defined.

(** X11: a recorded action is published once.  The pass asks for the
    marker to be cleared, so after the render that follows the marker is
    empty, the state is the same, and the publication effect of that
    render delivers nothing and changes nothing. *)
Theorem recorded_action_is_published_once (A : Args) (h : Hook)
  (action : JsValue) :
  reachable A h -> lastAction h = Some action -> pending h = [] ->
  exists h',
    render A (fst (publication_effect h)) = Returns h'
    /\ lastAction h' = None
    /\ state h' = state h
    /\ pending h' = []
    /\ publication_effect h' = (h', []).
Proof.
  intros Hreach Hl Hp.
  pose proof (reachable_inv A h Hreach) as Hi.
  destruct (publication_of_marker h action Hi Hl)
    as [sb [sb' [obs [Hs [Ha [_ [_ [_ [_ [_ Hpend]]]]]]]]]].
  destruct (publication_effect_cases h) as [[_ [H|[H|H]]]|Hc];
    try congruence.
  destruct Hc as [_ [_ [_ [_ [_ [_ [_ [_ [_ [_ [Hst _]]]]]]]]]]].
  unfold render. rewrite Hpend, Hp, Hst. simpl.
  eexists. split; [reflexivity|]. simpl. repeat split.
Qed.

Lemma recorded_action_is_published_once_witness :
  exists h',
    render (counter no_draft) (fst (publication_effect incremented_counter))
    = Returns h'
    /\ lastAction h' = None
    /\ state h' = JsNumber 1
    /\ publication_effect h' = (h', []).
Proof.
  destruct (recorded_action_is_published_once (counter no_draft)
              incremented_counter (mkAction 0 "increment" JsUndefined)
              incremented_counter_reachable eq_refl eq_refl)
    as [h' [Hr [Hl [Hs [_ Hp]]]]].
  exists h'. split; [exact Hr|]. split; [exact Hl|].
  split; [rewrite Hs; reflexivity|exact Hp].
Defined.

(** Pushing into a coherent state bus, case by case. *)
Lemma StateBus_next_exact (v : JsValue) (sb : StateBus) :
  bus_coherent sb ->
  StateBus_next v sb
  = if strict_eq (StateObservable.value (state_obs sb)) v
    then ({| bus_value := v; distinct_key := distinct_key sb;
             state_obs := state_obs sb |}, [])
    else ({| bus_value := v; distinct_key := Some v;
             state_obs :=
               {| StateObservable.value := v;
                  StateObservable.notifier :=
                    StateObservable.notifier (state_obs sb) |} |},
          map (fun o => StateNotification o v)
            (StateObservable.notifier (state_obs sb))).
Proof.
  unfold bus_coherent, StateBus_next, StateBus_deliver, distinctUntilChanged.
  intros Hc. simpl. rewrite Hc.
  destruct (strict_eq (StateObservable.value (state_obs sb)) v) eqn:E; simpl.
  - reflexivity.
  - unfold StateObservable.source_next, strict_neq.
    rewrite strict_eq_sym, E. simpl. unfold state_events, Subject_next.
    now rewrite map_map.
Qed.

(** X12: what a publication pass delivers.  When the stored state is
    [===] to what the state observable holds (an effect-only action, a
    handler that returned the same state) no state notification is made;
    otherwise every subscriber of the state observable is told the new
    state once, in subscription order; the action notifications come
    after these and see the new state. *)
Theorem publication_notifies_state_on_change (A : Args) (h : Hook)
  (action : JsValue) (sb : StateBus) (observers : list ActionSubscriber) :
  reachable A h -> lastAction h = Some action ->
  stateRef h = Some sb -> actionRef h = Some observers ->
  snd (publication_effect h)
  = if strict_eq (StateObservable.value (state_obs sb)) (state h)
    then ActionBus_next action (StateObservable.value (state_obs sb)) observers
    else map (fun o => StateNotification o (state h))
           (StateObservable.notifier (state_obs sb))
         ++ ActionBus_next action (state h) observers.
Proof.
  intros Hreach Hl Hs Ha.
  destruct (reachable_inv A h Hreach) as [[sb0 [obs0 [Hs0 [_ Hc]]]] _].
  assert (sb0 = sb) by congruence. subst sb0.
  unfold publication_effect. rewrite Hl, Hs, Ha.
  rewrite (StateBus_next_exact (state h) sb Hc).
  destruct (strict_eq (StateObservable.value (state_obs sb)) (state h));
    reflexivity.
Qed.

Lemma publication_notifies_state_on_change_witness :
  snd (publication_effect incremented_counter)
  = [ StateNotification {| activation_id := 0; epic_index := 0 |}
        (JsNumber 1);
      ActionNotification {| activation_id := 0; epic_index := 1 |}
        (mkAction 0 "increment" JsUndefined) (JsNumber 1) ].
Proof.
  rewrite (publication_notifies_state_on_change (counter no_draft)
             incremented_counter (mkAction 0 "increment" JsUndefined)
             _ _ incremented_counter_reachable eq_refl eq_refl eq_refl).
  reflexivity.
Defined.

Lemma accepts_own_type_only (keys : list string) (ref : nat) (name : string)
  (payload : JsValue) :
  accepts (OfType keys) (mkAction ref name payload) = true -> In name keys.
Proof.
  simpl. rewrite ofType_predicate_spec. simpl. intros H.
  apply existsb_exists in H. destruct H as [k [Hk E]].
  apply String.eqb_eq in E. now subst k.
Qed.

(** X13: an action built by the callback surface reaches no epic but
    those that listen to every action or whose [ofType] names include the
    type of the action. *)
Theorem action_reaches_only_listening_epics (A : Args) (h : Hook)
  (ref : nat) (name : string) (payload : JsValue)
  (observers : list ActionSubscriber) :
  reachable A h -> lastAction h = Some (mkAction ref name payload) ->
  actionRef h = Some observers ->
  forall o a v,
    In (ActionNotification o a v) (snd (publication_effect h)) ->
    a = mkAction ref name payload
    /\ exists s,
         In s observers /\ subscriber s = o
         /\ (input s = AllActions
             \/ exists keys, input s = OfType keys /\ In name keys).
Proof.
  intros Hreach Hl Ha o a v He.
  destruct (publication_carries_marker h _ (reachable_inv A h Hreach) Hl
              o a v He) as [-> [obs [s [Ha' [Hin [Hsub Hacc]]]]]].
  assert (obs = observers) by congruence. subst obs.
  split; [reflexivity|]. exists s. split; [exact Hin|].
  split; [exact Hsub|].
  destruct (input s) as [|keys] eqn:Ei; [left; reflexivity|].
  right. exists keys. split; [reflexivity|].
  now apply (accepts_own_type_only keys ref name payload).
Qed.

Lemma action_reaches_only_listening_epics_witness :
  notified {| activation_id := 0; epic_index := 0 |}
    (snd (publication_effect incremented_counter))
  = [StateNotification {| activation_id := 0; epic_index := 0 |} (JsNumber 1)]
  /\ exists s,
       In s [ {| subscriber := {| activation_id := 0; epic_index := 0 |};
                 input := OfType ["incrementAsync"] |};
              {| subscriber := {| activation_id := 0; epic_index := 1 |};
                 input := AllActions |} ]
       /\ subscriber s = {| activation_id := 0; epic_index := 1 |}
       /\ (input s = AllActions
           \/ exists keys, input s = OfType keys /\ In "increment" keys).
Proof.
  split; [reflexivity|].
  exact (proj2 (action_reaches_only_listening_epics (counter no_draft)
                  incremented_counter 0 "increment" JsUndefined _
                  incremented_counter_reachable eq_refl eq_refl
                  {| activation_id := 0; epic_index := 1 |}
                  (mkAction 0 "increment" JsUndefined) (JsNumber 1)
                  (or_intror (or_introl eq_refl)))).
Defined.

(** ** Activation: one subscription per epic *)

Lemma subscribe_epic_exact (o : Observer) (e : Epic) (sb : StateBus)
  (observers : list ActionSubscriber) :
  subscribe_epic o e sb observers
  = ({| bus_value := bus_value sb; distinct_key := distinct_key sb;
        state_obs :=
          {| StateObservable.value := StateObservable.value (state_obs sb);
             StateObservable.notifier :=
               StateObservable.notifier (state_obs sb)
               ++ (if on_state e then [o] else []) |} |},
     observers
     ++ match on_action e with
        | Some f => [{| subscriber := o; input := f |}]
        | None => []
        end,
     if on_state e
     then [StateNotification o (StateObservable.value (state_obs sb))]
     else []).
Proof.
  unfold subscribe_epic. destruct sb as [bv key [val nt]]. simpl.
  destruct (on_state e), (on_action e); simpl; rewrite ?app_nil_r;
    reflexivity.
Qed.

Lemma subscribe_epics_exact (activation : nat) (epics : list Epic) :
  forall (i : nat) (sb : StateBus) (observers : list ActionSubscriber),
  let '(sb', observers', subs, ev) :=
    subscribe_epics activation i epics sb observers in
  let numbered := combine (seq i (List.length epics)) epics in
  let who := fun j => {| activation_id := activation; epic_index := j |} in
  subs = map who (seq i (List.length epics))
  /\ ev = flat_map
            (fun p => if on_state (snd p)
                      then [StateNotification (who (fst p))
                              (StateObservable.value (state_obs sb))]
                      else []) numbered
  /\ observers'
     = observers
       ++ flat_map
            (fun p => match on_action (snd p) with
                      | Some f => [{| subscriber := who (fst p); input := f |}]
                      | None => []
                      end) numbered
  /\ StateObservable.notifier (state_obs sb')
     = StateObservable.notifier (state_obs sb)
       ++ flat_map (fun p => if on_state (snd p) then [who (fst p)] else [])
            numbered
  /\ StateObservable.value (state_obs sb')
     = StateObservable.value (state_obs sb)
  /\ bus_value sb' = bus_value sb.
Proof.
  induction epics as [|e epics IH]; intros i sb observers.
  - simpl. rewrite !app_nil_r. repeat split.
  - cbn [subscribe_epics]. rewrite subscribe_epic_exact.
    set (sb1 := {| bus_value := bus_value sb; distinct_key := distinct_key sb;
                   state_obs := _ |}).
    set (obs1 := observers ++ _).
    specialize (IH (S i) sb1 obs1).
    destruct (subscribe_epics activation (S i) epics sb1 obs1)
      as [[[sb2 obs2] subs] ev2].
    cbv zeta in IH. destruct IH as [Hsubs [Hev [Hobs [Hnot [Hval Hbus]]]]].
    cbv zeta. simpl.
    split; [now rewrite Hsubs|]. split.
    { rewrite Hev. subst sb1. simpl. now destruct (on_state e). }
    split.
    { rewrite Hobs. subst obs1. now rewrite <- app_assoc. }
    split.
    { rewrite Hnot. subst sb1. simpl. now rewrite <- app_assoc. }
    split; [rewrite Hval|rewrite Hbus]; reflexivity.
Qed.

Lemma numbered_observers_distinct (activation n i : nat) :
  NoDup (map (fun j => {| activation_id := activation; epic_index := j |})
           (seq i n)).
Proof.
  revert i. induction n as [|n IH]; intros i; simpl; constructor.
  - rewrite in_map_iff. intros [j [E Hj]]. apply in_seq in Hj.
    injection E as E. lia.
  - apply IH.
Qed.

(** X14: the mount effect makes one subscription per epic of the list,
    in list order and all different, whatever the container held before;
    the action bus gets the epics that listen to actions, in list order,
    and nothing is attached to either bus that the cleanup does not hold. *)
Theorem activation_subscribes_each_epic_once (A : Args) (shared : Opts)
  (epics : list Epic) (h : Hook) :
  let h' := fst (mount_effect A shared epics h) in
  let who := fun j => {| activation_id := activations h; epic_index := j |} in
  effectSubscriptions h' = map who (seq 0 (List.length epics))
  /\ List.length (effectSubscriptions h') = List.length epics
  /\ NoDup (effectSubscriptions h')
  /\ actionRef h'
     = Some (flat_map
               (fun p => match on_action (snd p) with
                         | Some f =>
                             [{| subscriber := who (fst p); input := f |}]
                         | None => []
                         end)
               (combine (seq 0 (List.length epics)) epics))
  /\ (forall o, registered o h' -> In o (effectSubscriptions h')).
Proof.
  cbv zeta.
  pose proof (mount_effect_spec A shared epics h) as [[_ [Hreg _]] _].
  split; [|split; [|split; [|split; [|exact Hreg]]]].
  all: unfold mount_effect; rewrite StateBus_create_spec.
  all: match goal with
       | |- context [subscribe_epics ?a 0 ?eps ?sb []] =>
           pose proof (subscribe_epics_exact a eps 0 sb []) as E;
           destruct (subscribe_epics a 0 eps sb [])
             as [[[sb' obs'] subs] ev]
       end.
  all: cbv zeta in E; destruct E as [Hsubs [_ [Hobs _]]]; simpl.
  - exact Hsubs.
  - rewrite Hsubs, length_map, length_seq. reflexivity.
  - rewrite Hsubs. apply numbered_observers_distinct.
  - now rewrite Hobs.
Qed.

Lemma activation_subscribes_each_epic_once_witness :
  effectSubscriptions mounted_counter
  = [ {| activation_id := 0; epic_index := 0 |};
      {| activation_id := 0; epic_index := 1 |} ]
  /\ In {| activation_id := 0; epic_index := 1 |}
       (effectSubscriptions mounted_counter).
Proof.
  destruct (activation_subscribes_each_epic_once (counter no_draft)
              (snd (first_render (counter no_draft) defaultOptions))
              sample_epics (fst (first_render (counter no_draft) defaultOptions)))
    as [Hsubs [_ [_ [_ Hreg]]]].
  split; [exact Hsubs|]. apply Hreg. right.
  eexists. split; [reflexivity|]. simpl. tauto.
Defined.

(** X15: a change of the epic list re-synchronises without resetting the
    container: the stored state, the marker and the queue are kept.  The
    state observable, though, is built anew around an initial state, not
    the stored one: [init] applied to [initialState], with the [init] that
    the shared [defaultOptions] object holds when the effect runs
    ([initialState] itself when it holds none), and that value is what
    the epics watching the state are played on subscription, in list
    order. *)
Theorem reactivation_restarts_state_observable (A : Args) (shared : Opts)
  (epics : list Epic) (h : Hook) :
  let r := reactivate A shared epics h in
  let s0 := match init shared with
            | Some f => f (initialState A)
            | None => initialState A
            end in
  state (fst r) = state h
  /\ lastAction (fst r) = lastAction h
  /\ pending (fst r) = pending h
  /\ activations (fst r) = S (activations h)
  /\ (exists sb,
        stateRef (fst r) = Some sb
        /\ bus_value sb = s0
        /\ StateObservable.value (state_obs sb) = s0)
  /\ snd r
     = flat_map
         (fun p => if on_state (snd p)
                   then [StateNotification
                           {| activation_id := activations h;
                              epic_index := fst p |} s0]
                   else [])
         (combine (seq 0 (List.length epics)) epics).
Proof.
  cbv zeta. unfold reactivate, mount_effect.
  rewrite StateBus_create_spec.
  match goal with
  | |- context [subscribe_epics ?a 0 ?eps ?sb []] =>
      pose proof (subscribe_epics_exact a eps 0 sb []) as E;
      destruct (subscribe_epics a 0 eps sb []) as [[[sb' obs'] subs] ev]
  end.
  cbv zeta in E. destruct E as [_ [Hev [_ [_ [Hval Hbus]]]]].
  unfold initializedState in *. simpl in *.
  repeat split; try assumption.
  exists sb'. repeat split; assumption.
Qed.
